(** * Error propagation on the Error Analysis page

    A shallow embedding of Step 3 of [pages/4_Error_Analysis.py]: the
    "Basic Operations" calculator (lines 242-329) and the "Complex
    Function" evaluator (lines 331-439), followed by the properties the
    specification states about them.

    Numbers.  The page computes with Python floats.  Every finite float is
    read here as the real number it denotes and [+], [-], [*], [/],
    [math.sqrt] and [**] as the exact operations, so rounding, overflow and
    underflow are outside the development; the statements below are about
    the formulas the page evaluates.  What Python does instead of returning
    a real number is kept: [ZeroDivisionError], [ValueError], a complex
    result of [**], and the float [nan]. *)

From Stdlib Require Import Reals Lra Lia ZArith.
From stdpp Require Import gmap strings list sorting.

#[global] Instance R_eq_dec : EqDecision R := Req_EM_T.
#[global] Instance Rlt_decision (x y : R) : Decision (x < y)%R := Rlt_dec x y.

(** ** Python: exceptions *)

Inductive exn : Type :=
| ZeroDivisionError (msg : string)
| ValueError (msg : string)
| TypeError (msg : string)
| KeyError (key : string)
| SympifyError (msg : string)
| StreamlitAPIException (msg : string).

(** [str(e)], as interpolated by the f-strings of the two handlers. *)
Definition str_exn (e : exn) : string :=
  match e with
  | ZeroDivisionError msg | ValueError msg | TypeError msg
  | SympifyError msg | StreamlitAPIException msg => msg
  | KeyError key => "'" +:+ key +:+ "'"
  end.

Inductive except (A : Type) : Type :=
| Ok (a : A)
| Raise (e : exn).
Arguments Ok {A} a.
Arguments Raise {A} e.

#[global] Instance except_ret : MRet except := λ A a, Ok a.
#[global] Instance except_bind : MBind except :=
  λ A B f m, match m with Ok a => f a | Raise e => Raise e end.

(** ** Python: numbers *)

(** A float is a real number or [nan]. *)
Inductive pyfloat : Type :=
| Fin (r : R)
| NaN.

(** What [**] and [float(...)] can hand to the page: a float or a complex. *)
Inductive pynum : Type :=
| PyFloat (x : pyfloat)
| PyComplex (re im : R).

Definition is_integer (n : R) : Prop := IZR (Int_part n) = n.

(** [a ** n] on real results: repeated multiplication for an integral
    exponent, [exp (n * ln a)] otherwise. *)
Definition real_pow (a n : R) : R :=
  if decide (is_integer n) then powerRZ a (Int_part n) else Rpower a n.

(** [float.__pow__]: [x ** 0.0] is [1.0]; [0.0 ** n] raises for negative
    [n]; a negative base with a non-integral exponent gives the principal
    complex value. *)
Definition py_pow (a n : R) : except pynum :=
  if decide (n = 0%R) then Ok (PyFloat (Fin 1))
  else if decide (a = 0%R) then
    if decide (n < 0)%R
    then Raise (ZeroDivisionError "0.0 cannot be raised to a negative power")
    else Ok (PyFloat (Fin 0))
  else if decide (0 < a)%R then Ok (PyFloat (Fin (real_pow a n)))
  else if decide (is_integer n) then Ok (PyFloat (Fin (real_pow a n)))
  else Ok (PyComplex (Rpower (- a) n * cos (n * PI))
                     (Rpower (- a) n * sin (n * PI))).

(** [x / y] on floats. *)
Definition py_div (x y : R) : except R :=
  if decide (y = 0%R) then Raise (ZeroDivisionError "float division by zero")
  else Ok (x / y)%R.

(** [math.sqrt] on a float. *)
Definition math_sqrt (x : R) : except R :=
  if decide (x < 0)%R then Raise (ValueError "math domain error")
  else Ok (sqrt x).

Definition float_sqrt (x : pyfloat) : except pyfloat :=
  match x with
  | Fin r => s ← math_sqrt r; mret (Fin s)
  | NaN => Ok NaN
  end.

Definition float_mul (x y : pyfloat) : pyfloat :=
  match x, y with
  | Fin a, Fin b => Fin (a * b)
  | _, _ => NaN
  end.

Definition float_div (x y : pyfloat) : except pyfloat :=
  match x, y with
  | _, Fin b =>
      if decide (b = 0%R) then Raise (ZeroDivisionError "float division by zero")
      else Ok (match x with Fin a => Fin (a / b) | NaN => NaN end)
  | _, NaN => Ok NaN
  end.

(** [abs(z)]. *)
Definition py_abs (z : pynum) : pyfloat :=
  match z with
  | PyFloat (Fin r) => Fin (Rabs r)
  | PyFloat NaN => NaN
  | PyComplex re im => Fin (sqrt (re * re + im * im))
  end.

(** [z != 0]. *)
Definition py_ne_zero (z : pynum) : bool :=
  match z with
  | PyFloat (Fin r) => bool_decide (r ≠ 0%R)
  | PyFloat NaN => true
  | PyComplex re im => bool_decide (¬ (re = 0%R ∧ im = 0%R))
  end.

(** ** What a run of the page leaves on the screen *)

Inductive outcome : Type :=
| Shown (result : pynum) (propagated_error : pyfloat)
        (percentage_error : option pyfloat)
| ErrorBox (msg : string)
| Uncaught (e : exn)
| NotCalculated.

(** ** Basic Operations (lines 242-329) *)

Inductive operation : Type :=
| Addition | Subtraction | Multiplication | Division | Power.

Record basic_locals : Type := BasicLocals {
  result : option pynum;
  propagated_error : option pyfloat;
  formula_explanation : string }.

(** Lines 262-316.  [u ** 2] on a float [u] is its square. *)
Definition basic_operations (op : operation)
    (value_a uncertainty_a value_b uncertainty_b power_n : R)
  : except basic_locals :=
  match op with
  | Addition =>
      e ← math_sqrt (uncertainty_a ^ 2 + uncertainty_b ^ 2);
      mret (BasicLocals (Some (PyFloat (Fin (value_a + value_b))))
              (Some (Fin e)) "Δ(A+B) = √(ΔA² + ΔB²)")
  | Subtraction =>
      e ← math_sqrt (uncertainty_a ^ 2 + uncertainty_b ^ 2);
      mret (BasicLocals (Some (PyFloat (Fin (value_a - value_b))))
              (Some (Fin e)) "Δ(A-B) = √(ΔA² + ΔB²)")
  | Multiplication =>
      let res := (value_a * value_b)%R in
      if decide (value_a ≠ 0%R ∧ value_b ≠ 0%R) then
        rel_error_a ← py_div uncertainty_a (Rabs value_a);
        rel_error_b ← py_div uncertainty_b (Rabs value_b);
        rel_error_result ← math_sqrt (rel_error_a ^ 2 + rel_error_b ^ 2);
        mret (BasicLocals (Some (PyFloat (Fin res)))
                (Some (Fin (Rabs res * rel_error_result)))
                "Δ(A×B) = |A×B| × √[(ΔA/|A|)² + (ΔB/|B|)²]")
      else
        mret (BasicLocals (Some (PyFloat (Fin res))) None
                "Cannot calculate when values are zero")
  | Division =>
      if decide (value_b ≠ 0%R) then
        res ← py_div value_a value_b;
        if decide (value_a ≠ 0%R ∧ value_b ≠ 0%R) then
          rel_error_a ← py_div uncertainty_a (Rabs value_a);
          rel_error_b ← py_div uncertainty_b (Rabs value_b);
          rel_error_result ← math_sqrt (rel_error_a ^ 2 + rel_error_b ^ 2);
          mret (BasicLocals (Some (PyFloat (Fin res)))
                  (Some (Fin (Rabs res * rel_error_result)))
                  "Δ(A÷B) = |A÷B| × √[(ΔA/|A|)² + (ΔB/|B|)²]")
        else
          mret (BasicLocals (Some (PyFloat (Fin res))) None
                  "Cannot calculate when values are zero")
      else
        mret (BasicLocals None None "Division by zero")
  | Power =>
      res ← py_pow value_a power_n;
      if decide (value_a ≠ 0%R) then
        rel_error_a ← py_div uncertainty_a (Rabs value_a);
        let rel_error_result := (Rabs power_n * rel_error_a)%R in
        mret (BasicLocals (Some res)
                (Some (float_mul (py_abs res) (Fin rel_error_result)))
                "Δ(A^n) = |A^n| × |n| × (ΔA/|A|)")
      else
        mret (BasicLocals (Some res) None
                "Cannot calculate when value is zero")
  end.

(** Lines 318-329. *)
Definition display_results (l : basic_locals) : except outcome :=
  match result l, propagated_error l with
  | Some res, Some err =>
      if py_ne_zero res then
        q ← float_div err (py_abs res);
        mret (Shown res err (Some (float_mul q (Fin 100))))
      else mret (Shown res err None)
  | _, _ =>
      mret (ErrorBox "Unable to calculate result or error. Check your inputs.")
  end.

(** The branch as a whole; nothing around it catches an exception. *)
Definition basic_page (clicked : bool) (op : operation)
    (value_a uncertainty_a value_b uncertainty_b power_n : R) : outcome :=
  if clicked then
    match basic_operations op value_a uncertainty_a value_b uncertainty_b
            power_n ≫= display_results with
    | Ok o => o
    | Raise e => Uncaught e
    end
  else NotCalculated.

(** ** sympy, as the page uses it (line 6)

    The library is not part of the sources.  Its operations enter as an
    interface, in the shape of the calls the page makes; the page is
    embedded over any implementation of it.  A symbol is identified with
    its name: the symbols [sympify] creates carry nothing else. *)

Class Sympy (Expr : Type) : Type := {
  (** [sympify(text)] *)
  sympify : string → except Expr;
  (** [expr.free_symbols], a set *)
  free_symbols : Expr → gset string;
  (** [diff(expr, var)] *)
  diff : Expr → string → Expr;
  (** [expr.subs(subs_dict)] with float values *)
  subs : Expr → gmap string R → Expr;
  (** [e * u] for a float [u] *)
  expr_mul : Expr → R → Expr;
  (** [e ** k] for an int [k] *)
  expr_pow : Expr → Z → Expr;
  (** [a + b]; the int the sum starts from enters through [sympify_int] *)
  expr_add : Expr → Expr → Expr;
  sympify_int : Z → Expr;
  (** [e != k] for an int [k] *)
  expr_ne : Expr → Z → bool;
  (** [float(e)], also the conversion inside [math.sqrt(e)] *)
  expr_float : Expr → except pyfloat }.

(** What exact arithmetic on real-valued results guarantees about those
    operations. *)
Record SympyLaws {Expr : Type} (S : Sympy Expr) : Prop := {
  float_int : ∀ k, expr_float (sympify_int k) = Ok (Fin (IZR k));
  float_mul_real : ∀ e a u,
    expr_float e = Ok (Fin a) → expr_float (expr_mul e u) = Ok (Fin (a * u));
  float_pow_real : ∀ e a,
    expr_float e = Ok (Fin a) → expr_float (expr_pow e 2) = Ok (Fin (a ^ 2));
  float_add_real : ∀ e1 e2 a b,
    expr_float e1 = Ok (Fin a) → expr_float e2 = Ok (Fin b) →
    expr_float (expr_add e1 e2) = Ok (Fin (a + b));
  ne_zero_real : ∀ e a,
    expr_float e = Ok (Fin a) → expr_ne e 0 = bool_decide (a ≠ 0%R);
  eq_zero_float : ∀ e,
    expr_ne e 0 = false → expr_float e = Ok (Fin 0) }.

(** ** streamlit, as the Complex Function branch uses it *)

(** One entry of [st.session_state.error_variables]. *)
Record binding : Type := Binding { value : R; uncertainty : R }.

Module session_state.
Record t : Type := mk {
  error_formula : string;
  error_variables : gmap string binding;
  propagated_error : option pyfloat;
  percentage_error : option pyfloat }.
End session_state.

(** Lines 17-24: the state of a fresh session. *)
Definition fresh_session : session_state.t :=
  session_state.mk "" ∅ None None.

(** A script run threads the session state; an exception leaves the writes
    made before it in place. *)
Definition page (A : Type) : Type :=
  session_state.t → except A * session_state.t.

#[global] Instance page_ret : MRet page := λ A a ss, (Ok a, ss).
#[global] Instance page_bind : MBind page :=
  λ A B f m ss,
    match m ss with
    | (Ok a, ss') => f a ss'
    | (Raise e, ss') => (Raise e, ss')
    end.

Definition lift {A : Type} (m : except A) : page A := λ ss, (m, ss).

(** [try: body except Exception as e: handler(e)] *)
Definition try_except {A : Type} (body : page A) (handler : exn → page A)
  : page A :=
  λ ss, match body ss with
        | (Raise e, ss') => handler e ss'
        | r => r
        end.

Definition get_error_variables : page (gmap string binding) :=
  λ ss, (Ok (session_state.error_variables ss), ss).

Definition set_error_variables (d : gmap string binding) : page unit :=
  λ ss, (Ok (), session_state.mk (session_state.error_formula ss) d
                  (session_state.propagated_error ss)
                  (session_state.percentage_error ss)).

Definition set_error_formula (text : string) : page unit :=
  λ ss, (Ok (), session_state.mk text (session_state.error_variables ss)
                  (session_state.propagated_error ss)
                  (session_state.percentage_error ss)).

Definition set_propagated_error (x : option pyfloat) : page unit :=
  λ ss, (Ok (), session_state.mk (session_state.error_formula ss)
                  (session_state.error_variables ss) x
                  (session_state.percentage_error ss)).

Definition set_percentage_error (x : option pyfloat) : page unit :=
  λ ss, (Ok (), session_state.mk (session_state.error_formula ss)
                  (session_state.error_variables ss)
                  (session_state.propagated_error ss) x).

(** [st.session_state.error_variables[name]] *)
Definition getitem (name : string) : page binding :=
  λ ss, match session_state.error_variables ss !! name with
        | Some b => (Ok b, ss)
        | None => (Raise (KeyError name), ss)
        end.

(** [st.columns(spec)] for an int [spec]: one column per unit, and a spec
    that is not positive is refused. *)
Definition st_columns (spec : nat) : except (list nat) :=
  if decide (spec = 0)
  then Raise (StreamlitAPIException
                "The input argument to st.columns must be either a positive integer or a list of positive numeric weights.")
  else Ok (seq 0 spec).

(** [st.number_input(label, value=v, key=k)]: what the user typed into the
    widget [k], or [v] while the widget is untouched.  [widgets] is the
    state of the widgets by key; [min_value=0.0] on the uncertainty fields
    restricts what can be typed there. *)
Definition number_input (widgets : gmap string R) (key : string) (v : R) : R :=
  default v (widgets !! key).

(** [sorted(list(s), key=lambda x: x.name)]: [names] is the set in its
    iteration order, the result is ascending in the order of [str]. *)
Definition sorted (names : list string) : list string :=
  merge_sort String.le names.

(** Lines 352-358 on the dictionary alone. *)
Definition reconcile (error_variables : gmap string binding)
    (variables : list string) : gmap string binding :=
  let initialised :=
    if decide (size error_variables = 0)
    then list_to_map ((λ var, (var, Binding 0 0)) <$> variables)
    else error_variables in
  foldl (λ d var, match d !! var with
                  | None => <[var := Binding 0 0]> d
                  | Some _ => d
                  end)
        initialised variables.

(** Lines 364-378. *)
Fixpoint populate_inputs (widgets : gmap string R) (variables : list string)
  : page unit :=
  match variables with
  | [] => mret ()
  | var :: rest =>
      b ← getitem var;
      let v := number_input widgets ("value_" +:+ var) (value b) in
      let u := number_input widgets ("uncertainty_" +:+ var) (uncertainty b) in
      d ← get_error_variables;
      _ ← set_error_variables (<[var := Binding v u]> d);
      populate_inputs widgets rest
  end.

(** Line 384. *)
Fixpoint build_subs_dict (variables : list string) (d : gmap string R)
  : page (gmap string R) :=
  match variables with
  | [] => mret d
  | var :: rest =>
      b ← getitem var;
      build_subs_dict rest (<[var := value b]> d)
  end.

(** The texts of the two handlers (lines 436 and 439). *)
Definition calculation_error (e : exn) : string :=
  "Error in calculation: " +:+ str_exn e.

Definition parse_error (e : exn) : string :=
  "Error parsing expression: " +:+ str_exn e +:+
  ". Please enter a valid mathematical expression.".

(** The entries lines 364-378 leave in the dictionary. *)
Definition input_values (widgets : gmap string R) (variables : list string)
    (error_variables : gmap string binding) : gmap string binding :=
  foldl (λ d var,
           match d !! var with
           | Some b =>
               <[var := Binding
                          (number_input widgets ("value_" +:+ var) (value b))
                          (number_input widgets ("uncertainty_" +:+ var)
                             (uncertainty b))]> d
           | None => d
           end)
        error_variables variables.

(** The dictionary line 384 builds when every variable has its entry. *)
Definition bound_values (error_variables : gmap string binding)
    (variables : list string) : gmap string R :=
  foldl (λ d var, match error_variables !! var with
                  | Some b => <[var := value b]> d
                  | None => d
                  end)
        ∅ variables.

(** Σ over a list of reals. *)
Definition Rsum (l : list R) : R := foldr Rplus 0%R l.

Section ComplexFunction.
Context {Expr : Type} `{S : Sympy Expr}.

(** Lines 388-401, from the running sum [acc]. *)
Fixpoint error_squared_sum (expr : Expr) (subs_dict : gmap string R)
    (variables : list string) (acc : Expr) : page Expr :=
  match variables with
  | [] => mret acc
  | var :: rest =>
      let partial_deriv := diff expr var in
      let partial_deriv_value := subs partial_deriv subs_dict in
      b ← getitem var;
      let var_uncertainty := uncertainty b in
      error_squared_sum expr subs_dict rest
        (expr_add acc (expr_pow (expr_mul partial_deriv_value var_uncertainty) 2))
  end.

(** Lines 382-436.  The listing of the partial derivatives (428-433) only
    prints. *)
Definition calculation (expr : Expr) (variables : list string) : page outcome :=
  try_except
    (subs_dict ← build_subs_dict variables ∅;
     let res := subs expr subs_dict in
     total ← error_squared_sum expr subs_dict variables (sympify_int 0);
     err ← lift (expr_float total ≫= float_sqrt);
     _ ← set_propagated_error (Some err);
     pct ← (if expr_ne res 0 then
              f ← lift (expr_float res);
              q ← lift (float_div err (py_abs (PyFloat f)));
              mret (Some (float_mul q (Fin 100)))
            else mret None);
     _ ← set_percentage_error pct;
     f ← lift (expr_float res);
     mret (Shown (PyFloat f) err pct))
    (λ e, mret (ErrorBox (calculation_error e))).

(** Lines 338-439: one run of the branch.  [expression] is what the text
    input returns, [order] the iteration order of Python sets, [clicked]
    whether the button was pressed. *)
Definition complex_function (order : gset string → list string)
    (expression : string) (widgets : gmap string R) (clicked : bool)
  : page outcome :=
  _ ← set_error_formula expression;
  try_except
    (expr ← lift (sympify expression);
     let variables := sorted (order (free_symbols expr)) in
     d ← get_error_variables;
     _ ← set_error_variables (reconcile d variables);
     cols ← lift (st_columns (length variables));
     _ ← populate_inputs widgets variables;
     if clicked && bool_decide (variables ≠ [])
     then calculation expr variables
     else mret NotCalculated)
    (λ e, mret (ErrorBox (parse_error e))).

End ComplexFunction.

(** ** A model of sympy on sums, products and constant powers

    The part of sympy the statements below need, written out from the
    library's documented behaviour: expressions built from integers, floats,
    symbols, [Add], [Mul] and [Pow] with a numeric exponent ([a - b] is
    [a + (-1)*b] and [a / b] is [a * b**(-1)], as sympy stores them);
    numbers that are complex, [zoo] (what sympy returns for a division by
    zero, where Python raises) or [nan]; the elementary differentiation
    rules; and the automatic evaluation of [Add], [Mul] and [Pow] on numeric
    arguments.  Substitution replaces all symbols at once.  Sympy's further
    rewriting of symbolic expressions (collecting like terms, ordering
    arguments) is not modelled. *)

Module tree.

(** A fully numeric value. *)
Inductive snum : Type :=
| SNum (re im : R)
| SZoo
| SNaN.

Definition sadd (x y : snum) : snum :=
  match x, y with
  | SNaN, _ | _, SNaN => SNaN
  | SZoo, SZoo => SNaN
  | SZoo, SNum _ _ | SNum _ _, SZoo => SZoo
  | SNum a b, SNum c d => SNum (a + c) (b + d)
  end.

Definition smul (x y : snum) : snum :=
  match x, y with
  | SNaN, _ | _, SNaN => SNaN
  | SZoo, SZoo => SZoo
  | SZoo, SNum a b | SNum a b, SZoo =>
      if decide (a = 0%R ∧ b = 0%R) then SNaN else SZoo
  | SNum a b, SNum c d => SNum (a * c - b * d) (a * d + b * c)
  end.

(** The principal argument of a non-zero complex number. *)
Definition arg (re im : R) : R :=
  if decide (im = 0%R) then (if decide (re < 0)%R then PI else 0%R)
  else (2 * atan (im / (sqrt (re * re + im * im) + re)))%R.

(** [x ** n] for a real exponent: [x ** 0] is [1], [0 ** n] is [zoo] for
    negative [n], and a result off the real line is the principal value. *)
Definition spow (x : snum) (n : R) : snum :=
  if decide (n = 0%R) then SNum 1 0
  else match x with
       | SNaN => SNaN
       | SZoo => if decide (0 < n)%R then SZoo else SNum 0 0
       | SNum re im =>
           if decide (re = 0%R ∧ im = 0%R)
           then (if decide (0 < n)%R then SNum 0 0 else SZoo)
           else if decide (im = 0%R ∧ ((0 < re)%R ∨ is_integer n))
           then SNum (real_pow re n) 0
           else let m := sqrt (re * re + im * im) in
                let t := arg re im in
                SNum (Rpower m n * cos (n * t)) (Rpower m n * sin (n * t))
       end.

Inductive expr : Type :=
| Integer (k : Z)
| Number (v : snum)
| Symbol (name : string)
| Add (a b : expr)
| Mul (a b : expr)
| Pow (b : expr) (n : R).

Definition Float (r : R) : expr := Number (SNum r 0).

Definition as_number (e : expr) : option snum :=
  match e with
  | Integer k => Some (SNum (IZR k) 0)
  | Number v => Some v
  | _ => None
  end.

Definition is_infinite (e : expr) : bool :=
  match e with
  | Number SZoo | Number SNaN => true
  | _ => false
  end.

(** [Add(a, b)], [Mul(a, b)] and [Pow(b, n)] as sympy evaluates them when
    built: the integers 0 and 1 are absorbed, numbers are combined. *)
Definition mk_add (a b : expr) : expr :=
  match a, b with
  | Integer 0, _ => b
  | _, Integer 0 => a
  | _, _ =>
      match as_number a, as_number b with
      | Some x, Some y => Number (sadd x y)
      | _, _ => Add a b
      end
  end.

Definition mk_mul (a b : expr) : expr :=
  match a, b with
  | Integer 0, _ => if is_infinite b then Number SNaN else Integer 0
  | _, Integer 0 => if is_infinite a then Number SNaN else Integer 0
  | Integer 1, _ => b
  | _, Integer 1 => a
  | _, _ =>
      match as_number a, as_number b with
      | Some x, Some y => Number (smul x y)
      | _, _ => Mul a b
      end
  end.

Definition mk_pow (b : expr) (n : R) : expr :=
  match as_number b with
  | Some v => Number (spow v n)
  | None => Pow b n
  end.

Fixpoint free_symbols (e : expr) : gset string :=
  match e with
  | Integer _ | Number _ => ∅
  | Symbol name => {[ name ]}
  | Add a b | Mul a b => free_symbols a ∪ free_symbols b
  | Pow b _ => free_symbols b
  end.

(** Sum, product and power rule, the chain rule through the base. *)
Fixpoint diff (e : expr) (var : string) : expr :=
  match e with
  | Integer _ | Number _ => Integer 0
  | Symbol name => if decide (name = var) then Integer 1 else Integer 0
  | Add a b => mk_add (diff a var) (diff b var)
  | Mul a b => mk_add (mk_mul (diff a var) b) (mk_mul a (diff b var))
  | Pow b n => mk_mul (mk_mul (Float n) (Pow b (n - 1))) (diff b var)
  end.

Fixpoint subs (e : expr) (subs_dict : gmap string R) : expr :=
  match e with
  | Integer _ | Number _ => e
  | Symbol name =>
      match subs_dict !! name with
      | Some r => Float r
      | None => e
      end
  | Add a b => mk_add (subs a subs_dict) (subs b subs_dict)
  | Mul a b => mk_mul (subs a subs_dict) (subs b subs_dict)
  | Pow b n => mk_pow (subs b subs_dict) n
  end.

Definition expr_ne (e : expr) (k : Z) : bool :=
  match as_number e with
  | Some (SNum re im) => bool_decide (¬ (re = IZR k ∧ im = 0%R))
  | _ => true
  end.

(** [float(e)]: [nan] converts, [zoo], a complex number and an expression
    with a free symbol do not. *)
Definition expr_float (e : expr) : except pyfloat :=
  match as_number e with
  | Some (SNum re im) =>
      if decide (im = 0%R) then Ok (Fin re)
      else Raise (TypeError "Cannot convert complex to float")
  | Some SNaN => Ok NaN
  | Some SZoo => Raise (TypeError "Cannot convert complex to float")
  | None => Raise (TypeError "Cannot convert expression to float")
  end.

(** [sympify] on the texts used below.  The table stands for the parser;
    a text outside it is answered like a malformed one, and no statement
    depends on that answer. *)
Definition sample_sympify (text : string) : except expr :=
  if decide (text = "x+y") then Ok (Add (Symbol "x") (Symbol "y"))
  else if decide (text = "x*y") then Ok (Mul (Symbol "x") (Symbol "y"))
  else if decide (text = "x+1") then Ok (Add (Symbol "x") (Integer 1))
  else if decide (text = "x^2") then Ok (Pow (Symbol "x") 2)
  else if decide (text = "sqrt(x)") then Ok (Pow (Symbol "x") (1 / 2))
  else if decide (text = "a/b") then Ok (Mul (Symbol "a") (Pow (Symbol "b") (-1)))
  else if decide (text = "a-b")
       then Ok (Add (Symbol "a") (Mul (Integer (-1)) (Symbol "b")))
  else if decide (text = "a-a") then Ok (Integer 0)
  else if decide (text = "5") then Ok (Integer 5)
  else Raise (SympifyError ("could not parse '" +:+ text +:+ "'")).

End tree.

#[global] Instance tree_sympy (parse : string → except tree.expr)
  : Sympy tree.expr := {|
  sympify := parse;
  free_symbols := tree.free_symbols;
  diff := tree.diff;
  subs := tree.subs;
  expr_mul := λ e u, tree.mk_mul e (tree.Float u);
  expr_pow := λ e k, tree.mk_pow e (IZR k);
  expr_add := tree.mk_add;
  sympify_int := tree.Integer;
  expr_ne := tree.expr_ne;
  expr_float := tree.expr_float |}.

(** ** The two calculators side by side

    The expression whose propagation a row of the Basic Operations table
    restates, as sympy stores it, and its variables.  The exponent of the
    power row is the number typed into "Power (n)". *)

Definition general_expr (op : operation) (power_n : R) : tree.expr :=
  match op with
  | Addition => tree.Add (tree.Symbol "A") (tree.Symbol "B")
  | Subtraction =>
      tree.Add (tree.Symbol "A") (tree.Mul (tree.Integer (-1)) (tree.Symbol "B"))
  | Multiplication => tree.Mul (tree.Symbol "A") (tree.Symbol "B")
  | Division => tree.Mul (tree.Symbol "A") (tree.Pow (tree.Symbol "B") (-1))
  | Power => tree.Pow (tree.Symbol "A") power_n
  end.

Definition general_variables (op : operation) : list string :=
  match op with
  | Power => ["A"]
  | _ => ["A"; "B"]
  end.

(** Of a pair of numbers, the one that belongs to [A] or to [B]. *)
Definition of_operand (for_a for_b : R) (name : string) : R :=
  if decide (name = "A") then for_a else for_b.

(** The operands of a row as entries of the dictionary. *)
Definition operands (value_a uncertainty_a value_b uncertainty_b : R)
  : session_state.t :=
  session_state.mk ""
    {[ "A" := Binding value_a uncertainty_a;
       "B" := Binding value_b uncertainty_b ]}
    None None.

(** The binding store of the reconciliation example of the specification. *)
Definition store_xy : gmap string binding :=
  {[ "x" := Binding 2 (1 / 10); "y" := Binding 3 (2 / 10) ]}.

(** A session holding that store for the expression "x*y". *)
Definition session_xy : session_state.t :=
  session_state.mk "x*y" store_xy None None.

(** ** What a run leaves in the session

    A step keeps the inputs when, whatever its outcome, the formula and the
    dictionary of the session are afterwards what they were. *)

Definition keeps_inputs {A : Type} (m : page A) : Prop :=
  ∀ ss,
    session_state.error_formula (m ss).2 = session_state.error_formula ss ∧
    session_state.error_variables (m ss).2 = session_state.error_variables ss.

(** What the widgets of one variable make of its entry (lines 367-378). *)
Definition typed (widgets : gmap string R) (var : string) (b : binding)
  : binding :=
  Binding (number_input widgets ("value_" +:+ var) (value b))
          (number_input widgets ("uncertainty_" +:+ var) (uncertainty b)).

(** ** Step 1: the lists of errors (lines 40-70)

    A text is the sequence of its characters; [isspace] is [str.isspace] on
    one character and [newline] the character the page splits on. *)

Section ErrorLists.
Context {char : Type} `{EqDecision char}.
Context (isspace : char → bool) (newline : char).

(** [s.split(sep)] for a separator of one character. *)
Fixpoint str_split (sep : char) (s : list char) : list (list char) :=
  match s with
  | [] => [[]]
  | c :: rest =>
      if decide (c = sep) then [] :: str_split sep rest
      else match str_split sep rest with
           | [] => [[c]]
           | line :: lines => (c :: line) :: lines
           end
  end.

(** [sep.join(l)] *)
Fixpoint str_join (sep : char) (l : list (list char)) : list char :=
  match l with
  | [] => []
  | [line] => line
  | line :: lines => line ++ sep :: str_join sep lines
  end.

(** [s.lstrip()], [s.rstrip()] and [s.strip()] *)
Fixpoint str_lstrip (s : list char) : list char :=
  match s with
  | [] => []
  | c :: rest => if isspace c then str_lstrip rest else s
  end.

Fixpoint str_rstrip (s : list char) : list char :=
  match s with
  | [] => []
  | c :: rest =>
      match str_rstrip rest with
      | [] => if isspace c then [] else [c]
      | kept => c :: kept
      end
  end.

Definition str_strip (s : list char) : list char :=
  str_rstrip (str_lstrip s).

(** What [st.session_state.random_errors] holds: a list, or anything else
    the text area accepts as its value. *)
Inductive stored_errors : Type :=
| ErrorList (errors : list (list char))
| ErrorText (text : list char).

(** Lines 44-47 and 60-63. *)
Definition errors_text (stored : stored_errors) : list char :=
  match stored with
  | ErrorList errors => str_join newline errors
  | ErrorText text => text
  end.

(** [st.text_area(label, value=v)]: what the user typed, or [v] while the
    widget is untouched. *)
Definition text_area (typed : option (list char)) (v : list char)
  : list char :=
  default v typed.

(** Lines 55 and 71: a string is true when it is not empty. *)
Definition parse_errors (edited : list char) : list (list char) :=
  str_strip <$> filter (λ err, str_strip err ≠ []) (str_split newline edited).

(** Lines 44-55 (60-71): one run of the step on one of the two lists. *)
Definition identify_errors (typed : option (list char))
    (stored : stored_errors) : list (list char) :=
  parse_errors (text_area typed (errors_text stored)).

End ErrorLists.

Definition ascii_isspace (c : Ascii.ascii) : bool :=
  bool_decide (Ascii.nat_of_ascii c ∈ [9; 10; 11; 12; 13; 28; 29; 30; 31; 32]%nat).

Definition ascii_newline : Ascii.ascii := Ascii.ascii_of_nat 10.

(** ** Step 2: the uncertainty of repeated measurements (lines 95-128 and
    166-190) and of an instrument (lines 199-210)

    The measurements are finite floats, read as reals.  numpy's scalars do
    not raise on a division by zero: they answer inf or nan. *)

Inductive float64 : Type :=
| F64 (r : R)
| F64Inf (negative : bool)
| F64NaN.

(** [x / d] for a float [d] that is not [-0.0]; the page divides by
    [abs(...)] and by [math.sqrt(...)] only. *)
Definition float64_div (x : float64) (d : R) : float64 :=
  match x with
  | F64 r =>
      if decide (d = 0%R)
      then (if decide (r = 0%R) then F64NaN
            else F64Inf (bool_decide (r < 0)%R))
      else F64 (r / d)
  | F64Inf negative => F64Inf (xorb negative (bool_decide (d < 0)%R))
  | F64NaN => F64NaN
  end.

(** [x * k] *)
Definition float64_mul (x : float64) (k : R) : float64 :=
  match x with
  | F64 r => F64 (r * k)
  | F64Inf negative =>
      if decide (k = 0%R) then F64NaN
      else F64Inf (xorb negative (bool_decide (k < 0)%R))
  | F64NaN => F64NaN
  end.

(** [np.mean], [np.max], [np.min] on a non-empty array, and
    [np.std(a, ddof=1)], which is nan for a single element. *)
Definition np_mean (a : list R) : R := (Rsum a / INR (length a))%R.

Definition np_max (a : list R) : R :=
  match a with
  | [] => 0%R
  | x :: rest => foldl Rmax x rest
  end.

Definition np_min (a : list R) : R :=
  match a with
  | [] => 0%R
  | x :: rest => foldl Rmin x rest
  end.

Definition np_std (a : list R) : float64 :=
  if decide (length a ≤ 1) then F64NaN
  else F64 (sqrt (Rsum ((λ x, (x - np_mean a) ^ 2)%R <$> a)
                     / INR (length a - 1))).

Inductive uncertainty_method : Type :=
| RangeMethod | StandardDeviation | StandardErrorOfTheMean.

(** Lines 96-98 and 109-117 (170-173 for the measurements typed in). *)
Definition range_value (data_values : list R) : R :=
  (np_max data_values - np_min data_values)%R.

Definition absolute_uncertainty (method : uncertainty_method)
    (data_values : list R) : float64 :=
  match method with
  | RangeMethod => F64 (range_value data_values / 2)
  | StandardDeviation => np_std data_values
  | StandardErrorOfTheMean =>
      float64_div (np_std data_values) (sqrt (INR (length data_values)))
  end.

(** Line 123 (185-187): no guard on the mean. *)
Definition percentage_uncertainty (method : uncertainty_method)
    (data_values : list R) : float64 :=
  float64_mul
    (float64_div (absolute_uncertainty method data_values)
       (Rabs (np_mean data_values)))
    100.

(** Lines 199-210: the absolute and the percentage uncertainty are shown
    for a non-zero value, a warning otherwise. *)
Definition instrument_uncertainty (instrument_value instrument_precision : R)
  : option (R * R) :=
  let absolute_uncertainty_instr := (instrument_precision / 2)%R in
  if decide (instrument_value ≠ 0%R)
  then Some (absolute_uncertainty_instr,
             (absolute_uncertainty_instr / Rabs instrument_value * 100)%R)
  else None.

(** * Properties *)

Local Open Scope R_scope.

(** ** Integral exponents *)

Lemma Int_part_IZR (k : Z) : Int_part (IZR k) = k.
Proof. symmetry. apply Int_part_spec. lra. Qed.

Lemma is_integer_IZR (k : Z) : is_integer (IZR k).
Proof. unfold is_integer. by rewrite Int_part_IZR. Qed.

Lemma real_pow_IZR (a : R) (k : Z) : real_pow a (IZR k) = powerRZ a k.
Proof.
  unfold real_pow. rewrite decide_True by apply is_integer_IZR.
  by rewrite Int_part_IZR.
Qed.



Lemma real_pow_0 (a : R) : real_pow a 0 = 1.
Proof. by rewrite real_pow_IZR. Qed.

Lemma real_pow_2 (a : R) : real_pow a 2 = a ^ 2.
Proof. rewrite real_pow_IZR. simpl. lra. Qed.


(** ** Basic Operations *)

Lemma math_sqrt_nonneg (x : R) : 0 <= x → math_sqrt x = Ok (sqrt x).
Proof. intros Hx. unfold math_sqrt. by rewrite decide_False by lra. Qed.

Lemma py_div_nonzero (x y : R) : y ≠ 0 → py_div x y = Ok (x / y).
Proof. intros Hy. unfold py_div. by rewrite decide_False. Qed.

Lemma sum_squares_nonneg (x y : R) : 0 <= x ^ 2 + y ^ 2.
Proof. pose proof (pow2_ge_0 x). pose proof (pow2_ge_0 y). lra. Qed.

Lemma py_pow_zero_negative (n : R) :
  n < 0 →
  py_pow 0 n
  = Raise (ZeroDivisionError "0.0 cannot be raised to a negative power").
Proof.
  intros Hn. unfold py_pow.
  rewrite decide_False by lra. rewrite decide_True by done.
  by rewrite decide_True by done.
Qed.

Lemma py_pow_zero_nonneg (n : R) :
  0 <= n → ∃ r, py_pow 0 n = Ok (PyFloat (Fin r)).
Proof.
  intros Hn. unfold py_pow. case_decide; [eauto|].
  rewrite decide_True by done. rewrite decide_False by lra. eauto.
Qed.

(** What the display shows for a real result and a real uncertainty. *)
Lemma display_results_real (r e : R) (formula : string) :
  display_results (BasicLocals (Some (PyFloat (Fin r))) (Some (Fin e)) formula)
  = Ok (Shown (PyFloat (Fin r)) (Fin e)
          (if decide (r = 0) then None else Some (Fin (e / Rabs r * 100)))).
Proof.
  unfold display_results. cbn [result propagated_error py_ne_zero].
  destruct (decide (r = 0)) as [->|Hr].
  - by rewrite bool_decide_eq_false_2 by (intros ?; done).
  - rewrite bool_decide_eq_true_2 by done. cbn [py_abs float_div].
    by rewrite decide_False by (by apply Rabs_no_R0).
Qed.

(** With a zero base the power row reports its error when the exponent is
    not negative. *)
Lemma power_of_zero_nonnegative_exponent (ua b ub n : R) :
  0 <= n →
  basic_page true Power 0 ua b ub n
  = ErrorBox "Unable to calculate result or error. Check your inputs.".
Proof.
  intros Hn. unfold basic_page, basic_operations.
  destruct (py_pow_zero_nonneg n Hn) as [r ->]. cbn [mbind except_bind].
  by rewrite decide_False by (intros ?; done).
Qed.

(** C7 (the code departs from the claim).  With [A = 0] and the exponent
    [-1] the power row computes [0.0 ** -1.0] on line 306, before the guard
    of line 309: the [ZeroDivisionError] leaves the script instead of the
    error message the row shows for a zero base. *)
Theorem power_of_zero_negative_exponent_uncaught :
  basic_page true Power 0 (1 / 10) 0 0 (-1)
  = Uncaught (ZeroDivisionError "0.0 cannot be raised to a negative power").
Proof.
  unfold basic_page, basic_operations.
  by rewrite py_pow_zero_negative by lra.
Qed.

(** ** Reconciliation of the binding dictionary *)

Lemma reconcile_loop_lookup (variables : list string)
    (d : gmap string binding) (name : string) :
  foldl (λ d var, match d !! var with
                  | None => <[var := Binding 0 0]> d
                  | Some _ => d
                  end) d variables !! name
  = match d !! name with
    | Some b => Some b
    | None => if decide (name ∈ variables) then Some (Binding 0 0) else None
    end.
Proof.
  revert d. induction variables as [|var rest IH]; intros d; simpl.
  - by destruct (d !! name).
  - rewrite IH. destruct (decide (name = var)) as [->|Hne].
    + destruct (d !! var) as [b|] eqn:Hvar;
        rewrite ?lookup_insert_eq, ?Hvar; [done|].
      rewrite decide_True; [done|]. by left.
    + assert (name ∈ var :: rest ↔ name ∈ rest) as Hiff.
      { rewrite elem_of_cons.
        split; [intros [?|?]; [congruence|done] | by right]. }
      destruct (d !! var) as [b|] eqn:Hvar; rewrite ?lookup_insert_ne by done;
        (destruct (d !! name); [done|]); by rewrite (decide_ext _ _ _ _ Hiff).
Qed.

Lemma reconcile_entry (error_variables : gmap string binding)
    (variables : list string) (name : string) :
  reconcile error_variables variables !! name
  = match error_variables !! name with
    | Some b => Some b
    | None => if decide (name ∈ variables) then Some (Binding 0 0) else None
    end.
Proof.
  unfold reconcile. rewrite reconcile_loop_lookup.
  destruct (decide (size error_variables = 0%nat)) as [Hz|Hnz]; [|done].
  apply map_size_empty_iff in Hz as ->. rewrite lookup_empty.
  destruct (list_to_map _ !! name) as [b|] eqn:Hl.
  - apply elem_of_list_to_map_2 in Hl.
    apply list_elem_of_fmap in Hl as (v & [= -> ->] & Hv).
    by rewrite decide_True.
  - done.
Qed.

(** C2 (as amended).  Reconciliation keeps every entry of the dictionary
    as it is, whether or not its name is among the new variables, and adds
    the entry (0.0, 0.0) for each new variable that has none; it removes
    nothing. *)
Theorem reconcile_keeps_and_creates (error_variables : gmap string binding)
    (variables : list string) (name : string) :
  reconcile error_variables variables !! name
  = match error_variables !! name with
    | Some b => Some b
    | None => if decide (name ∈ variables) then Some (Binding 0 0) else None
    end.
Proof. apply reconcile_entry. Qed.

(** C2 (the claim as stated fails).  After the expression changes from
    "x*y" to "x+1" the variables are [x] alone, and the dictionary still
    holds [y]. *)
Lemma reconcile_keeps_orphan :
  reconcile store_xy ["x"] !! "x" = Some (Binding 2 (1 / 10)) ∧
  reconcile store_xy ["x"] !! "y" ≠ None.
Proof.
  rewrite !reconcile_entry. unfold store_xy.
  rewrite lookup_insert_eq, lookup_insert_ne, lookup_singleton_eq by done.
  done.
Qed.

(** ** The variable list *)




Lemma sorted_nil : sorted [] = [].
Proof. reflexivity. Qed.


(** ** Running the page *)

Lemma page_bind_ok {A B : Type} (m : page A) (f : A → page B)
    (ss ss' : session_state.t) (a : A) (r : except B * session_state.t) :
  m ss = (Ok a, ss') → f a ss' = r → (m ≫= f) ss = r.
Proof. intros Hm Hf. unfold mbind, page_bind. by rewrite Hm. Qed.

Lemma page_bind_raise {A B : Type} (m : page A) (f : A → page B)
    (ss ss' : session_state.t) (e : exn) :
  m ss = (Raise e, ss') → (m ≫= f) ss = (Raise e, ss').
Proof. intros Hm. unfold mbind, page_bind. by rewrite Hm. Qed.

Lemma page_bind_inv {A B : Type} (m : page A) (f : A → page B)
    (ss ss' : session_state.t) (b : B) :
  (m ≫= f) ss = (Ok b, ss') →
  ∃ a s1, m ss = (Ok a, s1) ∧ f a s1 = (Ok b, ss').
Proof.
  unfold mbind, page_bind. destruct (m ss) as [[a|e] s1]; [eauto|done].
Qed.

Lemma try_except_ok {A : Type} (body : page A) (handler : exn → page A)
    (ss ss' : session_state.t) (a : A) :
  body ss = (Ok a, ss') → try_except body handler ss = (Ok a, ss').
Proof. intros Hb. unfold try_except. by rewrite Hb. Qed.

Lemma try_except_raise {A : Type} (body : page A) (handler : exn → page A)
    (ss ss' : session_state.t) (e : exn) :
  body ss = (Raise e, ss') → try_except body handler ss = handler e ss'.
Proof. intros Hb. unfold try_except. by rewrite Hb. Qed.

(** A handler that ends in [st.error] lets no exception through. *)
Lemma try_except_reports (body : page outcome) (msg : exn → string)
    (ss : session_state.t) :
  ∃ o ss', try_except body (λ e, mret (ErrorBox (msg e))) ss = (Ok o, ss').
Proof. unfold try_except. destruct (body ss) as [[o|e] s1]; eauto. Qed.

Lemma try_except_shown (body : page outcome) (msg : exn → string)
    (ss ss' : session_state.t) (r : pynum) (e : pyfloat) (p : option pyfloat) :
  try_except body (λ e, mret (ErrorBox (msg e))) ss = (Ok (Shown r e p), ss') →
  body ss = (Ok (Shown r e p), ss').
Proof. unfold try_except. by destruct (body ss) as [[o|ex] s1]. Qed.

Lemma getitem_Some (name : string) (b : binding) (ss : session_state.t) :
  session_state.error_variables ss !! name = Some b →
  getitem name ss = (Ok b, ss).
Proof. intros H. unfold getitem. by rewrite H. Qed.

Lemma build_subs_dict_foldl (variables : list string) (d : gmap string R)
    (ss : session_state.t) :
  (∀ v, v ∈ variables → is_Some (session_state.error_variables ss !! v)) →
  build_subs_dict variables d ss
  = (Ok (foldl (λ d var, match session_state.error_variables ss !! var with
                         | Some b => <[var := value b]> d
                         | None => d
                         end) d variables), ss).
Proof.
  revert d. induction variables as [|var rest IH]; intros d Hall; [done|].
  destruct (Hall var) as [b Hb]; [by left|].
  cbn [build_subs_dict foldl]. unfold mbind at 1, page_bind.
  rewrite (getitem_Some _ _ _ Hb), Hb. apply IH.
  intros v Hv. apply Hall. by right.
Qed.

Lemma Rsum_squares_nonneg (f : string → R) (l : list string) :
  0 <= Rsum ((λ v, f v ^ 2) <$> l).
Proof.
  induction l as [|v l IH]; [simpl; lra|].
  change (0 <= f v ^ 2 + Rsum ((λ v, f v ^ 2) <$> l)).
  pose proof (pow2_ge_0 (f v)). lra.
Qed.

Lemma reconcile_nil (d : gmap string binding) : reconcile d [] = d.
Proof.
  apply map_eq. intros name. rewrite reconcile_entry.
  destruct (d !! name); [done|]. by rewrite decide_False by apply not_elem_of_nil.
Qed.

Section Evaluator.
Context {Expr : Type} {S : Sympy Expr}.

(** The loop of lines 390-401 adds one squared term per variable. *)
Lemma error_squared_sum_real (L : SympyLaws S) (expr : Expr)
    (subs_dict : gmap string R) (val unc partial_value : string → R)
    (variables : list string) (acc : Expr) (s : R) (ss : session_state.t) :
  (∀ v, v ∈ variables →
        session_state.error_variables ss !! v = Some (Binding (val v) (unc v))) →
  (∀ v, v ∈ variables →
        expr_float (subs (diff expr v) subs_dict) = Ok (Fin (partial_value v))) →
  expr_float acc = Ok (Fin s) →
  ∃ total,
    error_squared_sum expr subs_dict variables acc ss = (Ok total, ss) ∧
    expr_float total
    = Ok (Fin (s + Rsum ((λ v, (partial_value v * unc v) ^ 2) <$> variables))).
Proof.
  revert acc s. induction variables as [|var rest IH]; intros acc s Hb Hp Hacc.
  - exists acc. split; [done|]. simpl. by rewrite Rplus_0_r.
  - cbn [error_squared_sum]. unfold mbind at 1, page_bind.
    rewrite (getitem_Some _ _ _ (Hb var ltac:(by left))). cbn [uncertainty].
    destruct (IH (expr_add acc
                    (expr_pow (expr_mul (subs (diff expr var) subs_dict)
                                 (unc var)) 2))
                 (s + (partial_value var * unc var) ^ 2))
      as (total & Hrun & Hfl).
    + intros v Hv. apply Hb. by right.
    + intros v Hv. apply Hp. by right.
    + apply (float_add_real _ L); [done|].
      apply (float_pow_real _ L), (float_mul_real _ L), Hp. by left.
    + exists total. split; [done|]. rewrite Hfl. do 2 f_equal.
      change (Rsum ((λ v, (partial_value v * unc v) ^ 2) <$> var :: rest))
        with ((partial_value var * unc var) ^ 2
              + Rsum ((λ v, (partial_value v * unc v) ^ 2) <$> rest)).
      lra.
Qed.

(** The whole of lines 382-434 when the substitutions give real numbers. *)
Lemma calculation_real (L : SympyLaws S) (expr : Expr)
    (variables : list string) (ss : session_state.t)
    (val unc partial_value : string → R) (nominal : R) :
  (∀ v, v ∈ variables →
        session_state.error_variables ss !! v = Some (Binding (val v) (unc v))) →
  expr_float
    (subs expr (bound_values (session_state.error_variables ss) variables))
  = Ok (Fin nominal) →
  (∀ v, v ∈ variables →
        expr_float
          (subs (diff expr v)
             (bound_values (session_state.error_variables ss) variables))
        = Ok (Fin (partial_value v))) →
  let err := sqrt (Rsum ((λ v, (partial_value v * unc v) ^ 2) <$> variables)) in
  let pct := if decide (nominal = 0) then None
             else Some (Fin (err / Rabs nominal * 100)) in
  calculation expr variables ss
  = (Ok (Shown (PyFloat (Fin nominal)) (Fin err) pct),
     session_state.mk (session_state.error_formula ss)
       (session_state.error_variables ss) (Some (Fin err)) pct).
Proof.
  intros Hb Hnom Hp err pct.
  destruct (error_squared_sum_real L expr _ val unc partial_value variables
              (sympify_int 0) 0 ss Hb Hp (float_int _ L 0))
    as (total & Hrun & Hfl).
  rewrite Rplus_0_l in Hfl.
  unfold calculation. apply try_except_ok.
  eapply page_bind_ok.
  { apply build_subs_dict_foldl. intros v Hv. rewrite (Hb v Hv). eauto. }
  fold (bound_values (session_state.error_variables ss) variables).
  eapply page_bind_ok; [exact Hrun|].
  eapply page_bind_ok.
  { unfold lift. rewrite Hfl. cbn [mbind except_bind float_sqrt].
    unfold math_sqrt. rewrite decide_False; [reflexivity|].
    apply Rle_not_lt, (Rsum_squares_nonneg (λ v, partial_value v * unc v)). }
  fold err. eapply page_bind_ok; [reflexivity|].
  rewrite (ne_zero_real _ L _ _ Hnom). subst pct.
  destruct (decide (nominal = 0)) as [Hz|Hnz].
  - rewrite bool_decide_eq_false_2 by (intros ?; done).
    eapply page_bind_ok; [reflexivity|].
    eapply page_bind_ok; [reflexivity|].
    eapply page_bind_ok; [unfold lift; by rewrite Hnom|]. reflexivity.
  - rewrite bool_decide_eq_true_2 by done.
    eapply page_bind_ok.
    { eapply page_bind_ok; [unfold lift; by rewrite Hnom|].
      eapply page_bind_ok; [|reflexivity].
      unfold lift. cbn [py_abs float_div].
      rewrite decide_False by (by apply Rabs_no_R0). reflexivity. }
    eapply page_bind_ok; [reflexivity|].
    eapply page_bind_ok; [unfold lift; by rewrite Hnom|]. reflexivity.
Qed.

(** C1.  Let every variable have its entry (a value and an uncertainty) in
    the dictionary, and let the expression and each of its partial
    derivatives, as [diff] returns them, evaluate to real numbers at the
    bound values.  Then the evaluator shows the value of the expression at
    the bound values as the result, and as its uncertainty the square root
    of the sum over the variables of (value of the partial derivative times
    the uncertainty of the variable) squared; it stores that uncertainty in
    the session. *)
Theorem propagated_error_is_root_sum_square (L : SympyLaws S) (expr : Expr)
    (variables : list string) (ss : session_state.t)
    (val unc partial_value : string → R) (nominal : R) :
  (∀ v, v ∈ variables →
        session_state.error_variables ss !! v = Some (Binding (val v) (unc v))) →
  (∀ v, v ∈ variables → 0 <= unc v) →
  expr_float
    (subs expr (bound_values (session_state.error_variables ss) variables))
  = Ok (Fin nominal) →
  (∀ v, v ∈ variables →
        expr_float
          (subs (diff expr v)
             (bound_values (session_state.error_variables ss) variables))
        = Ok (Fin (partial_value v))) →
  let err := sqrt (Rsum ((λ v, (partial_value v * unc v) ^ 2) <$> variables)) in
  ∃ pct ss',
    calculation expr variables ss
    = (Ok (Shown (PyFloat (Fin nominal)) (Fin err) pct), ss') ∧
    session_state.propagated_error ss' = Some (Fin err).
Proof.
  intros Hb _ Hnom Hp err. eexists _, _. split.
  - by apply (calculation_real L expr variables ss val unc partial_value).
  - done.
Qed.

(** C4.  Whenever the evaluator shows a result, the percentage error is
    absent (on the screen and in the session) if the result is zero;
    otherwise it is the uncertainty divided by the magnitude of the result,
    times 100. *)
Theorem percentage_error_absent_iff_zero (L : SympyLaws S) (expr : Expr)
    (variables : list string) (ss ss' : session_state.t)
    (nominal err : pyfloat) (pct : option pyfloat) :
  calculation expr variables ss = (Ok (Shown (PyFloat nominal) err pct), ss') →
  session_state.percentage_error ss' = pct ∧
  (nominal = Fin 0 → pct = None) ∧
  (nominal ≠ Fin 0 →
   ∃ q, float_div err (py_abs (PyFloat nominal)) = Ok q ∧
        pct = Some (float_mul q (Fin 100))) ∧
  (∀ n e, nominal = Fin n → err = Fin e → n ≠ 0 →
          pct = Some (Fin (e / Rabs n * 100))).
Proof.
  unfold calculation. intros Hbody%try_except_shown.
  apply page_bind_inv in Hbody as (subs_dict & s2 & _ & Hbody).
  apply page_bind_inv in Hbody as (total & s3 & _ & Hbody).
  apply page_bind_inv in Hbody as (err' & s4 & _ & Hbody).
  apply page_bind_inv in Hbody as ([] & s5 & _ & Hbody).
  apply page_bind_inv in Hbody as (pct' & s6 & Hpct & Hbody).
  apply page_bind_inv in Hbody as ([] & s7 & Hset & Hbody).
  apply page_bind_inv in Hbody as (f & s8 & Hf & Hbody).
  injection Hbody as -> -> -> ->.
  injection Hset as <-. unfold lift in Hf. injection Hf as Hf <-.
  split; [done|].
  destruct (expr_ne _ 0) eqn:Hne.
  - apply page_bind_inv in Hpct as (f' & s9 & Hf' & Hpct).
    apply page_bind_inv in Hpct as (q & s10 & Hq & Hpct).
    injection Hpct as <- _. unfold lift in Hf', Hq.
    injection Hf' as Hf' _. injection Hq as Hq _.
    rewrite Hf in Hf'. injection Hf' as <-.
    split; [|split].
    + intros ->. cbn in Hq. by rewrite decide_True in Hq by apply Rabs_R0.
    + eauto.
    + intros n e -> -> Hn. cbn in Hq.
      rewrite decide_False in Hq by (by apply Rabs_no_R0).
      by injection Hq as <-.
  - injection Hpct as <- _.
    apply (eq_zero_float _ L) in Hne. rewrite Hf in Hne. injection Hne as ->.
    split; [done|]. split; [done|]. intros n e [= <-] _ Hn. done.
Qed.

(** What the parse handler reports (lines 438-439). *)
Lemma complex_function_sympify_raises (order : gset string → list string)
    (text : string) (widgets : gmap string R) (clicked : bool)
    (ss : session_state.t) (e : exn) :
  sympify text = Raise e →
  complex_function order text widgets clicked ss
  = (Ok (ErrorBox (parse_error e)),
     session_state.mk text (session_state.error_variables ss)
       (session_state.propagated_error ss)
       (session_state.percentage_error ss)).
Proof.
  intros He. unfold complex_function.
  eapply page_bind_ok; [reflexivity|].
  erewrite try_except_raise; [reflexivity|].
  apply page_bind_raise. unfold lift. by rewrite He.
Qed.

Lemma complex_function_never_raises (order : gset string → list string)
    (text : string) (widgets : gmap string R) (clicked : bool)
    (ss : session_state.t) :
  ∃ o ss', complex_function order text widgets clicked ss = (Ok o, ss').
Proof.
  unfold complex_function, mbind at 1, page_bind, set_error_formula.
  apply try_except_reports.
Qed.

(** An expression without free symbols stops at line 361. *)
Lemma complex_function_no_symbols (order : gset string → list string)
    (text : string) (widgets : gmap string R) (clicked : bool)
    (ss : session_state.t) (expr : Expr) :
  sympify text = Ok expr →
  free_symbols expr = ∅ →
  order ∅ = [] →
  ∃ msg,
    complex_function order text widgets clicked ss
    = (Ok (ErrorBox (parse_error (StreamlitAPIException msg))),
       session_state.mk text (session_state.error_variables ss)
         (session_state.propagated_error ss)
         (session_state.percentage_error ss)).
Proof.
  intros He Hfree Hord. eexists. unfold complex_function.
  eapply page_bind_ok; [reflexivity|].
  erewrite try_except_raise; [reflexivity|].
  eapply page_bind_ok; [unfold lift; by rewrite He|].
  rewrite Hfree, Hord, sorted_nil.
  eapply page_bind_ok; [reflexivity|].
  eapply page_bind_ok; [reflexivity|].
  apply page_bind_raise. rewrite reconcile_nil. reflexivity.
Qed.

End Evaluator.

(** ** The model of sympy *)

Lemma float_real_inv (e : tree.expr) (a : R) :
  tree.expr_float e = Ok (Fin a) →
  ∃ im, tree.as_number e = Some (tree.SNum a im) ∧ im = 0.
Proof.
  unfold tree.expr_float. destruct (tree.as_number e) as [[re im| |]|]; try done.
  case_decide; [|done]. intros [= ->]. eauto.
Qed.

Lemma float_real_intro (e : tree.expr) (a im : R) :
  tree.as_number e = Some (tree.SNum a im) → im = 0 →
  tree.expr_float e = Ok (Fin a).
Proof.
  intros He Him. unfold tree.expr_float. rewrite He. by rewrite decide_True.
Qed.

Lemma float_Float (r : R) : tree.expr_float (tree.Float r) = Ok (Fin r).
Proof. by apply (float_real_intro _ _ 0). Qed.

Lemma float_Integer (k : Z) : tree.expr_float (tree.Integer k) = Ok (Fin (IZR k)).
Proof. by apply (float_real_intro _ _ 0). Qed.

Lemma as_number_Some_cases (e : tree.expr) (v : tree.snum) :
  tree.as_number e = Some v →
  (∃ k, e = tree.Integer k ∧ v = tree.SNum (IZR k) 0) ∨ e = tree.Number v.
Proof. destruct e; simpl; intros [= <-]; eauto. Qed.

Lemma float_mk_add (e1 e2 : tree.expr) (a b : R) :
  tree.expr_float e1 = Ok (Fin a) → tree.expr_float e2 = Ok (Fin b) →
  tree.expr_float (tree.mk_add e1 e2) = Ok (Fin (a + b)).
Proof.
  intros (i1 & H1 & ->)%float_real_inv (i2 & H2 & ->)%float_real_inv.
  apply as_number_Some_cases in H1 as [(k1 & -> & [= -> ])| ->];
  apply as_number_Some_cases in H2 as [(k2 & -> & [= -> ])| ->];
    try destruct k1 as [|p1|p1]; try destruct k2 as [|p2|p2]; cbn;
    rewrite ?decide_True by lra; do 2 f_equal; lra.
Qed.

Lemma float_mk_mul (e1 e2 : tree.expr) (a b : R) :
  tree.expr_float e1 = Ok (Fin a) → tree.expr_float e2 = Ok (Fin b) →
  tree.expr_float (tree.mk_mul e1 e2) = Ok (Fin (a * b)).
Proof.
  intros (i1 & H1 & ->)%float_real_inv (i2 & H2 & ->)%float_real_inv.
  apply as_number_Some_cases in H1 as [(k1 & -> & [= -> ])| ->];
  apply as_number_Some_cases in H2 as [(k2 & -> & [= -> ])| ->];
    try destruct k1 as [|[p1|p1|]|p1]; try destruct k2 as [|[p2|p2|]|p2]; cbn;
    rewrite ?decide_True by lra; do 2 f_equal; lra.
Qed.

Lemma spow_real (a n : R) :
  a ≠ 0 → 0 < a ∨ is_integer n →
  tree.spow (tree.SNum a 0) n = tree.SNum (real_pow a n) 0.
Proof.
  intros Ha Hn. unfold tree.spow. case_decide as H0.
  - subst n. by rewrite real_pow_0.
  - rewrite decide_False by (intros [? _]; done).
    by rewrite decide_True.
Qed.

Lemma spow_zero_pos (n : R) :
  0 < n → tree.spow (tree.SNum 0 0) n = tree.SNum 0 0.
Proof.
  intros Hn. unfold tree.spow. rewrite decide_False by lra.
  rewrite decide_True by done. by rewrite decide_True.
Qed.

Lemma spow_zero_neg (n : R) : n < 0 → tree.spow (tree.SNum 0 0) n = tree.SZoo.
Proof.
  intros Hn. unfold tree.spow. rewrite decide_False by lra.
  rewrite decide_True by done. by rewrite decide_False by lra.
Qed.

Lemma float_mk_pow (e : tree.expr) (a n : R) :
  tree.expr_float e = Ok (Fin a) → a ≠ 0 → 0 < a ∨ is_integer n →
  tree.expr_float (tree.mk_pow e n) = Ok (Fin (real_pow a n)).
Proof.
  intros (i & H & ->)%float_real_inv Ha Hn. unfold tree.mk_pow. rewrite H.
  rewrite spow_real by done. by apply (float_real_intro _ _ 0).
Qed.

Lemma float_mk_pow_2 (e : tree.expr) (a : R) :
  tree.expr_float e = Ok (Fin a) →
  tree.expr_float (tree.mk_pow e 2) = Ok (Fin (a ^ 2)).
Proof.
  intros He. destruct (decide (a = 0)) as [->|Ha].
  - apply float_real_inv in He as (i & H & ->). unfold tree.mk_pow. rewrite H.
    rewrite spow_zero_pos by lra.
    replace (0 ^ 2) with 0 by (simpl; lra). by apply (float_real_intro _ _ 0).
  - rewrite <- real_pow_2. apply float_mk_pow; [done..|].
    right. apply (is_integer_IZR 2).
Qed.

Lemma tree_laws (parse : string → except tree.expr) :
  SympyLaws (tree_sympy parse).
Proof.
  split.
  - intros k. apply float_Integer.
  - intros e a u He. apply (float_mk_mul e (tree.Float u)); [done|].
    apply float_Float.
  - intros e a He. by apply (float_mk_pow_2 e).
  - intros e1 e2 a b. apply float_mk_add.
  - intros e a (i & H & ->)%float_real_inv.
    change (tree.expr_ne e 0 = bool_decide (a ≠ 0)).
    unfold tree.expr_ne. rewrite H.
    apply bool_decide_ext. split; [intros Hn ->; apply Hn; done|tauto].
  - intros e. change (tree.expr_ne e 0 = false → tree.expr_float e = Ok (Fin 0)).
    unfold tree.expr_ne, tree.expr_float.
    destruct (tree.as_number e) as [[re im| |]|]; try done.
    intros [-> ->]%bool_decide_eq_false%dec_stable. by rewrite decide_True.
Qed.

Lemma float_subs_Symbol (d : gmap string R) (name : string) (r : R) :
  d !! name = Some r → tree.expr_float (tree.subs (tree.Symbol name) d) = Ok (Fin r).
Proof. intros H. cbn [tree.subs]. rewrite H. apply float_Float. Qed.

Lemma bound_values_foldl_lookup (ev : gmap string binding)
    (val unc : string → R) (variables : list string) (d : gmap string R)
    (name : string) :
  (∀ v, v ∈ variables → ev !! v = Some (Binding (val v) (unc v))) →
  foldl (λ d var, match ev !! var with
                  | Some b => <[var := value b]> d
                  | None => d
                  end) d variables !! name
  = if decide (name ∈ variables) then Some (val name) else d !! name.
Proof.
  revert d. induction variables as [|var rest IH]; intros d Hb.
  - cbn [foldl]. by rewrite decide_False by apply not_elem_of_nil.
  - cbn [foldl]. rewrite (Hb var) by (by left). cbn [value].
    rewrite IH by (intros v Hv; apply Hb; by right).
    destruct (decide (name ∈ rest)) as [Hin|Hnin].
    + rewrite decide_True; [done|by right].
    + destruct (decide (name = var)) as [->|Hne].
      * rewrite lookup_insert_eq. rewrite decide_True; [done|by left].
      * rewrite lookup_insert_ne by done. rewrite decide_False; [done|].
        rewrite elem_of_cons. intros [?|?]; done.
Qed.

Lemma bound_values_lookup (ev : gmap string binding) (val unc : string → R)
    (variables : list string) (name : string) :
  (∀ v, v ∈ variables → ev !! v = Some (Binding (val v) (unc v))) →
  name ∈ variables → bound_values ev variables !! name = Some (val name).
Proof.
  intros Hb Hin. unfold bound_values.
  rewrite (bound_values_foldl_lookup ev val unc) by done. by rewrite decide_True.
Qed.

Lemma populate_inputs_run (widgets : gmap string R) (variables : list string)
    (ss : session_state.t) :
  (∀ v, v ∈ variables → is_Some (session_state.error_variables ss !! v)) →
  populate_inputs widgets variables ss
  = (Ok (),
     session_state.mk (session_state.error_formula ss)
       (input_values widgets variables (session_state.error_variables ss))
       (session_state.propagated_error ss)
       (session_state.percentage_error ss)).
Proof.
  revert ss. induction variables as [|var rest IH]; intros ss Hall.
  - by destruct ss.
  - destruct (Hall var) as [b Hb]; [by left|].
    cbn [populate_inputs]. eapply page_bind_ok; [by apply getitem_Some|].
    eapply page_bind_ok; [reflexivity|].
    eapply page_bind_ok; [reflexivity|].
    rewrite IH.
    + unfold input_values. cbn [foldl]. by rewrite Hb.
    + intros v Hv. cbn. apply lookup_insert_is_Some'. right. apply Hall. by right.
Qed.

(** ** Division by zero in the evaluator *)

(** [zoo * u] and its square: [nan] for [u = 0], [zoo] otherwise. *)
Lemma pole_term (u : R) :
  ∃ t, tree.mk_pow (tree.mk_mul (tree.Number tree.SZoo) (tree.Float u)) 2
       = tree.Number t ∧ (t = tree.SZoo ∨ t = tree.SNaN).
Proof.
  unfold tree.mk_mul, tree.mk_pow. cbn [tree.Float tree.as_number tree.smul].
  destruct (decide (u = 0 ∧ 0 = 0)).
  - exists tree.SNaN. split; [|by right]. cbn [tree.as_number]. unfold tree.spow.
    by rewrite decide_False by lra.
  - exists tree.SZoo. split; [|by left]. cbn [tree.as_number]. unfold tree.spow.
    rewrite decide_False by lra. by rewrite decide_True by lra.
Qed.

Lemma sadd_poles (t1 t2 : tree.snum) :
  t1 = tree.SZoo ∨ t1 = tree.SNaN → t2 = tree.SZoo ∨ t2 = tree.SNaN →
  tree.sadd t1 t2 = tree.SNaN.
Proof. by intros [-> | ->] [-> | ->]. Qed.

Lemma calculation_division_by_zero (parse : string → except tree.expr)
    (ss : session_state.t) (a ua ub : R) :
  a ≠ 0 →
  session_state.error_variables ss !! "a" = Some (Binding a ua) →
  session_state.error_variables ss !! "b" = Some (Binding 0 ub) →
  calculation (S := tree_sympy parse)
    (tree.Mul (tree.Symbol "a") (tree.Pow (tree.Symbol "b") (-1))) ["a"; "b"] ss
  = (Ok (ErrorBox (calculation_error
                     (TypeError "Cannot convert complex to float"))),
     session_state.mk (session_state.error_formula ss)
       (session_state.error_variables ss) (Some NaN)
       (session_state.percentage_error ss)).
Proof.
  intros Ha HA HB.
  set (val := λ v : string, if decide (v = "a") then a else 0).
  set (unc := λ v : string, if decide (v = "a") then ua else ub).
  assert (∀ v, v ∈ ["a"; "b"] →
               session_state.error_variables ss !! v
               = Some (Binding (val v) (unc v))) as Hb.
  { intros v [->|[->|[]%not_elem_of_nil]%elem_of_cons]%elem_of_cons; done. }
  set (d := bound_values (session_state.error_variables ss) ["a"; "b"]).
  assert (d !! "a" = Some a) as Hda.
  { apply (bound_values_lookup _ val unc _ "a" Hb). by left. }
  assert (d !! "b" = Some 0) as Hdb.
  { apply (bound_values_lookup _ val unc _ "b" Hb). right. by left. }
  assert (tree.mk_pow (tree.Float 0) (-1) = tree.Number tree.SZoo) as Hpole1.
  { unfold tree.mk_pow. cbn [tree.as_number tree.Float].
    by rewrite spow_zero_neg by lra. }
  assert (tree.mk_pow (tree.Float 0) (-1 - 1) = tree.Number tree.SZoo) as Hpole2.
  { unfold tree.mk_pow. cbn [tree.as_number tree.Float].
    by rewrite spow_zero_neg by lra. }
  assert (tree.subs (tree.Mul (tree.Symbol "a") (tree.Pow (tree.Symbol "b") (-1))) d
          = tree.Number tree.SZoo) as Hres.
  { cbn [tree.subs]. rewrite Hda, Hdb, Hpole1. cbn.
    by rewrite decide_False by (intros [? _]; done). }
  assert (tree.subs (tree.diff (tree.Mul (tree.Symbol "a")
                                  (tree.Pow (tree.Symbol "b") (-1))) "a") d
          = tree.Number tree.SZoo) as Hpa.
  { change (tree.subs (tree.Pow (tree.Symbol "b") (-1)) d = tree.Number tree.SZoo).
    cbn [tree.subs]. by rewrite Hdb. }
  assert (tree.subs (tree.diff (tree.Mul (tree.Symbol "a")
                                  (tree.Pow (tree.Symbol "b") (-1))) "b") d
          = tree.Number tree.SZoo) as Hpb.
  { change (tree.subs (tree.Mul (tree.Symbol "a")
                         (tree.Mul (tree.Float (-1))
                            (tree.Pow (tree.Symbol "b") (-1 - 1)))) d
            = tree.Number tree.SZoo).
    cbn [tree.subs]. rewrite Hda, Hdb, Hpole2. cbn.
    rewrite decide_False by (intros [? _]; lra). cbn.
    by rewrite decide_False by (intros [? _]; done). }
  destruct (pole_term ua) as (t1 & Ht1 & Hc1).
  destruct (pole_term ub) as (t2 & Ht2 & Hc2).
  unfold calculation.
  erewrite try_except_raise; [reflexivity|].
  eapply page_bind_ok.
  { apply build_subs_dict_foldl. intros v Hv. rewrite (Hb v Hv). eauto. }
  fold (bound_values (session_state.error_variables ss) ["a"; "b"]). fold d.
  eapply page_bind_ok.
  { cbn [error_squared_sum].
    eapply page_bind_ok; [by apply getitem_Some|].
    eapply page_bind_ok; [by apply getitem_Some|]. reflexivity. }
  cbn [uncertainty subs diff expr_mul expr_pow expr_add sympify_int expr_ne
       expr_float tree_sympy].
  rewrite Hpa, Hpb, Ht1, Ht2.
  change (tree.mk_add (tree.mk_add (tree.Integer 0) (tree.Number t1))
            (tree.Number t2))
    with (tree.Number (tree.sadd t1 t2)).
  rewrite sadd_poles by done.
  eapply page_bind_ok; [reflexivity|].
  eapply page_bind_ok; [reflexivity|].
  rewrite Hres. apply page_bind_raise. reflexivity.
Qed.

Lemma variables_a_over_b :
  sorted (elements (tree.free_symbols
                      (tree.Mul (tree.Symbol "a")
                         (tree.Pow (tree.Symbol "b") (-1)))))
  = ["a"; "b"].
Proof. vm_compute. reflexivity. Qed.

Lemma inputs_a_over_b :
  let d := input_values {[ "value_a" := 1 ]} ["a"; "b"] (reconcile ∅ ["a"; "b"]) in
  d !! "a" = Some (Binding 1 0) ∧ d !! "b" = Some (Binding 0 0).
Proof. split; vm_compute; reflexivity. Qed.

(** C3 (the code departs from the claim).  The expression "a/b" with
    [a = 1] typed in and [b] left at 0.0: sympy answers the division by
    zero with [zoo] instead of raising, the sum of squares is [nan], and
    line 407 stores [nan] as the propagated error before [float(result)]
    fails on line 411.  The run ends in the error box of the calculation
    handler with [nan] left in the session state. *)
Theorem division_by_zero_leaves_nan :
  let run := complex_function (S := tree_sympy tree.sample_sympify) elements
               "a/b" {[ "value_a" := 1 ]} true fresh_session in
  run.1 = Ok (ErrorBox "Error in calculation: Cannot convert complex to float") ∧
  session_state.propagated_error run.2 = Some NaN ∧
  session_state.error_variables run.2 !! "a" = Some (Binding 1 0) ∧
  session_state.error_variables run.2 !! "b" = Some (Binding 0 0).
Proof.
  destruct inputs_a_over_b as [Ha Hb].
  assert (complex_function (S := tree_sympy tree.sample_sympify) elements
            "a/b" {[ "value_a" := 1 ]} true fresh_session
          = (Ok (ErrorBox (calculation_error
                             (TypeError "Cannot convert complex to float"))),
             session_state.mk "a/b"
               (input_values {[ "value_a" := 1 ]} ["a"; "b"]
                  (reconcile ∅ ["a"; "b"]))
               (Some NaN) None)) as ->.
  { unfold complex_function.
    eapply page_bind_ok; [reflexivity|].
    apply try_except_ok.
    eapply page_bind_ok; [reflexivity|].
    cbn [free_symbols tree_sympy]. rewrite variables_a_over_b.
    eapply page_bind_ok; [reflexivity|].
    eapply page_bind_ok; [reflexivity|].
    eapply page_bind_ok; [reflexivity|].
    eapply page_bind_ok.
    { apply populate_inputs_run. intros v Hv. cbn [session_state.error_variables].
      rewrite reconcile_entry. unfold fresh_session.
      cbn [session_state.error_variables]. rewrite lookup_empty.
      rewrite decide_True by done. eauto. }
    cbn [andb session_state.error_variables session_state.error_formula
         session_state.propagated_error session_state.percentage_error
         fresh_session].
    rewrite bool_decide_eq_true_2 by done.
    by rewrite (calculation_division_by_zero _ _ 1 0 0) by (done || lra). }
  done.
Qed.

(** ** The closed forms and the general law *)

Section Rows.
Context (parse : string → except tree.expr) (a ua b ub : R).


Lemma operands_bindings (v : string) :
  v ∈ ["A"; "B"] →
  session_state.error_variables (operands a ua b ub) !! v
  = Some (Binding (of_operand a b v) (of_operand ua ub v)).
Proof.
  intros [->|[->|[]%not_elem_of_nil]%elem_of_cons]%elem_of_cons;
    cbn [operands session_state.error_variables].
  - by rewrite lookup_insert_eq.
  - by rewrite lookup_insert_ne, lookup_singleton_eq.
Qed.

Lemma operands_values (variables : list string) (v : string) :
  variables ⊆ ["A"; "B"] → v ∈ variables →
  bound_values (session_state.error_variables (operands a ua b ub)) variables !! v
  = Some (of_operand a b v).
Proof.
  intros Hsub Hv. apply (bound_values_lookup _ (of_operand a b) (of_operand ua ub)); [|done].
  intros w Hw. apply operands_bindings, Hsub, Hw.
Qed.

(** The evaluator on an expression in [A] and [B] whose value and partial
    derivatives are real at the operands. *)
Lemma calculation_two_operands (e : tree.expr) (nominal pa pb : R) :
  let d := bound_values (session_state.error_variables (operands a ua b ub))
             ["A"; "B"] in
  tree.expr_float (tree.subs e d) = Ok (Fin nominal) →
  tree.expr_float (tree.subs (tree.diff e "A") d) = Ok (Fin pa) →
  tree.expr_float (tree.subs (tree.diff e "B") d) = Ok (Fin pb) →
  let err := sqrt ((pa * ua) ^ 2 + (pb * ub) ^ 2) in
  (calculation (S := tree_sympy parse) e ["A"; "B"] (operands a ua b ub)).1
  = Ok (Shown (PyFloat (Fin nominal)) (Fin err)
          (if decide (nominal = 0) then None
           else Some (Fin (err / Rabs nominal * 100)))).
Proof.
  intros d Hn Ha Hb err.
  rewrite (calculation_real (tree_laws parse) e ["A"; "B"] _ (of_operand a b)
             (of_operand ua ub)
             (λ v, if decide (v = "A") then pa else pb) nominal).
  - cbn [fst fmap list_fmap Rsum foldr]. rewrite !decide_True by done.
    rewrite !decide_False by done.
    replace (sqrt ((pa * of_operand ua ub "A") ^ 2
                   + ((pb * of_operand ua ub "B") ^ 2 + 0))) with err;
      [done|]. unfold err, of_operand. rewrite decide_True by done.
    rewrite decide_False by done. f_equal. lra.
  - apply operands_bindings.
  - exact Hn.
  - intros v [->|[->|[]%not_elem_of_nil]%elem_of_cons]%elem_of_cons.
    + exact Ha.
    + exact Hb.
Qed.


Lemma values_AB :
  let d := bound_values (session_state.error_variables (operands a ua b ub))
             ["A"; "B"] in
  d !! "A" = Some a ∧ d !! "B" = Some b.
Proof.
  split.
  - apply (operands_values ["A"; "B"] "A"); [done|by left].
  - apply (operands_values ["A"; "B"] "B"); [done|]. right. by left.
Qed.


End Rows.







Lemma py_pow_real (a n : R) :
  a ≠ 0 → 0 < a ∨ is_integer n →
  py_pow a n = Ok (PyFloat (Fin (real_pow a n))).
Proof.
  intros Ha Hn. unfold py_pow. case_decide as H0.
  - subst n. by rewrite real_pow_0.
  - rewrite decide_False by done. destruct Hn as [Hpos|Hint].
    + by rewrite decide_True.
    + case_decide; [done|]. by rewrite decide_True.
Qed.

(** The display never raises: the division of line 324 is guarded. *)
Lemma display_results_shows (res : pynum) (err : pyfloat) (formula : string) :
  ∃ pct, display_results (BasicLocals (Some res) (Some err) formula)
         = Ok (Shown res err pct).
Proof.
  unfold display_results. cbn [result propagated_error].
  destruct (py_ne_zero res) eqn:Hne; [|eauto].
  destruct res as [[r|]|re im]; cbn [py_abs float_div py_ne_zero] in *.
  - apply bool_decide_eq_true in Hne.
    rewrite decide_False by (by apply Rabs_no_R0). cbn. eauto.
  - cbn. eauto.
  - apply bool_decide_eq_true in Hne. rewrite decide_False; [cbn; eauto|].
    intros Hs. apply sqrt_eq_0 in Hs; [|nra]. apply Hne. split; nra.
Qed.

Section RowByRow.
Context (parse : string → except tree.expr) (a ua b ub : R).

Lemma addition_row (n : R) :
  (calculation (S := tree_sympy parse) (general_expr Addition n)
     (general_variables Addition) (operands a ua b ub)).1
  = Ok (basic_page true Addition a ua b ub n).
Proof.
  destruct (values_AB a ua b ub) as [HA HB].
  cbn [general_expr general_variables].
  rewrite (calculation_two_operands parse a ua b ub _ (a + b) 1 1).
  - unfold basic_page, basic_operations.
    rewrite math_sqrt_nonneg by apply sum_squares_nonneg.
    cbn [mbind mret except_bind except_ret]. rewrite display_results_real.
    replace (sqrt ((1 * ua) ^ 2 + (1 * ub) ^ 2)) with (sqrt (ua ^ 2 + ub ^ 2))
      by (f_equal; ring).
    done.
  - apply float_mk_add; by apply float_subs_Symbol.
  - apply (float_Integer 1).
  - apply (float_Integer 1).
Qed.

Lemma subtraction_row (n : R) :
  (calculation (S := tree_sympy parse) (general_expr Subtraction n)
     (general_variables Subtraction) (operands a ua b ub)).1
  = Ok (basic_page true Subtraction a ua b ub n).
Proof.
  destruct (values_AB a ua b ub) as [HA HB].
  cbn [general_expr general_variables].
  rewrite (calculation_two_operands parse a ua b ub _ (a + -1 * b) 1 (-1)).
  - unfold basic_page, basic_operations.
    rewrite math_sqrt_nonneg by apply sum_squares_nonneg.
    cbn [mbind mret except_bind except_ret]. rewrite display_results_real.
    replace (a + -1 * b) with (a - b) by lra.
    replace (sqrt ((1 * ua) ^ 2 + (-1 * ub) ^ 2)) with (sqrt (ua ^ 2 + ub ^ 2))
      by (f_equal; ring).
    done.
  - apply float_mk_add; [by apply float_subs_Symbol|].
    apply float_mk_mul; [apply (float_Integer (-1))|by apply float_subs_Symbol].
  - apply (float_Integer 1).
  - apply (float_Integer (-1)).
Qed.




End RowByRow.


(** C9.  Whatever the values and the uncertainties, "A+B" and "A-B" get
    the same propagated uncertainty, the square root of ΔA² + ΔB², from
    the Basic Operations calculator and from the evaluator. *)
Theorem additive_propagation_symmetric (parse : string → except tree.expr)
    (a ua b ub n : R) :
  0 <= ua → 0 <= ub →
  let err := Fin (sqrt (ua ^ 2 + ub ^ 2)) in
  (∃ res pct, basic_page true Addition a ua b ub n = Shown res err pct) ∧
  (∃ res pct, basic_page true Subtraction a ua b ub n = Shown res err pct) ∧
  (∃ res pct,
     (calculation (S := tree_sympy parse) (general_expr Addition n)
        ["A"; "B"] (operands a ua b ub)).1 = Ok (Shown res err pct)) ∧
  (∃ res pct,
     (calculation (S := tree_sympy parse) (general_expr Subtraction n)
        ["A"; "B"] (operands a ua b ub)).1 = Ok (Shown res err pct)).
Proof.
  intros _ _ err.
  assert (∃ res pct, basic_page true Addition a ua b ub n = Shown res err pct)
    as Hadd.
  { unfold basic_page, basic_operations.
    rewrite math_sqrt_nonneg by apply sum_squares_nonneg.
    cbn [mbind mret except_bind except_ret]. rewrite display_results_real.
    eauto. }
  assert (∃ res pct, basic_page true Subtraction a ua b ub n = Shown res err pct)
    as Hsub.
  { unfold basic_page, basic_operations.
    rewrite math_sqrt_nonneg by apply sum_squares_nonneg.
    cbn [mbind mret except_bind except_ret]. rewrite display_results_real.
    eauto. }
  split; [done|]. split; [done|]. split.
  - destruct Hadd as (res & pct & Hadd).
    exists res, pct. rewrite <- Hadd. apply (addition_row parse).
  - destruct Hsub as (res & pct & Hsub).
    exists res, pct. rewrite <- Hsub. apply (subtraction_row parse).
Qed.

(** ** A negative base under a fractional exponent *)






(** C8 (the claim as stated fails).  "sqrt(x)" uses a function outside
    [+ - * / ^]; sympify parses it and the page goes on to the input
    fields. *)
Lemma function_outside_operator_set_is_accepted :
  (complex_function (S := tree_sympy tree.sample_sympify) elements
     "sqrt(x)" ∅ false fresh_session).1 = Ok NotCalculated.
Proof. vm_compute. reflexivity. Qed.

(** C10 (the claim as stated fails).  "a-a" parses to the constant 0; the
    exception of [st.columns(0)] is raised inside the [try] of line 344 and
    the handler of line 438 reports it: it is not uncaught. *)
Lemma variable_free_expression_is_caught :
  (complex_function (S := tree_sympy tree.sample_sympify) elements
     "a-a" ∅ true fresh_session).1
  = Ok (ErrorBox "Error parsing expression: The input argument to st.columns must be either a positive integer or a list of positive numeric weights.. Please enter a valid mathematical expression.").
Proof. vm_compute. reflexivity. Qed.

(** ** Parsing *)

(** C8 (as amended).  When sympify rejects the text, the page shows the
    error box of the parse handler with the message of the exception, and
    the run ends there without an uncaught exception; the page adds no
    restriction of its own to what sympify accepts. *)
Theorem parse_failure_is_reported {Expr : Type} {S : Sympy Expr}
    (order : gset string → list string) (text : string)
    (widgets : gmap string R) (clicked : bool) (ss : session_state.t)
    (e : exn) :
  sympify text = Raise e →
  complex_function order text widgets clicked ss
  = (Ok (ErrorBox (parse_error e)),
     session_state.mk text (session_state.error_variables ss)
       (session_state.propagated_error ss)
       (session_state.percentage_error ss)).
Proof. apply complex_function_sympify_raises. Qed.

Lemma parse_failure_is_reported_witness :
  complex_function (S := tree_sympy tree.sample_sympify) elements "x+" ∅ true
    fresh_session
  = (Ok (ErrorBox (parse_error (SympifyError "could not parse 'x+'"))),
     session_state.mk "x+" ∅ None None).
Proof.
  apply (parse_failure_is_reported (S := tree_sympy tree.sample_sympify)).
  reflexivity.
Defined.

(** C10 (as amended).  When the parsed expression has no free symbols the
    variable list is empty, [st.columns(0)] raises inside the [try] of line
    344, and the handler of line 438 shows its message as a parse error:
    nothing is evaluated and the stored propagated and percentage errors
    are left as they were. *)
Theorem variable_free_expression_reported_as_parse_error
    {Expr : Type} {S : Sympy Expr}
    (order : gset string → list string) (text : string)
    (widgets : gmap string R) (clicked : bool) (ss : session_state.t)
    (expr : Expr) :
  sympify text = Ok expr →
  free_symbols expr = ∅ →
  (∀ s, order s ≡ₚ elements s) →
  ∃ msg,
    complex_function order text widgets clicked ss
    = (Ok (ErrorBox (parse_error (StreamlitAPIException msg))),
       session_state.mk text (session_state.error_variables ss)
         (session_state.propagated_error ss)
         (session_state.percentage_error ss)).
Proof.
  intros He Hfree Ho. apply (complex_function_no_symbols _ _ _ _ _ expr); [done..|].
  apply Permutation_nil_r. by rewrite Ho, elements_empty.
Qed.

Lemma variable_free_expression_witness :
  ∃ msg,
    complex_function (S := tree_sympy tree.sample_sympify) elements "5" ∅ true
      fresh_session
    = (Ok (ErrorBox (parse_error (StreamlitAPIException msg))),
       session_state.mk "5" ∅ None None).
Proof.
  apply (variable_free_expression_reported_as_parse_error
           (S := tree_sympy tree.sample_sympify) elements "5" ∅ true
           fresh_session (tree.Integer 5)).
  - reflexivity.
  - reflexivity.
  - reflexivity.
Defined.

(** ** Witnesses on the example "x*y" *)


Lemma store_xy_bindings (v : string) :
  v ∈ ["x"; "y"] →
  session_state.error_variables session_xy !! v
  = Some (Binding (if decide (v = "x") then 2 else 3)
                  (if decide (v = "x") then 1 / 10 else 2 / 10)).
Proof.
  intros [->|[->|[]%not_elem_of_nil]%elem_of_cons]%elem_of_cons;
    cbn [session_xy session_state.error_variables]; unfold store_xy.
  - by rewrite lookup_insert_eq.
  - by rewrite lookup_insert_ne, lookup_singleton_eq.
Qed.

Lemma store_xy_partials (v : string) :
  v ∈ ["x"; "y"] →
  tree.expr_float
    (tree.subs (tree.diff (tree.Mul (tree.Symbol "x") (tree.Symbol "y")) v)
       (bound_values (session_state.error_variables session_xy) ["x"; "y"]))
  = Ok (Fin (if decide (v = "x") then 3 else 2)).
Proof.
  intros [->|[->|[]%not_elem_of_nil]%elem_of_cons]%elem_of_cons.
  - apply (float_subs_Symbol _ "y").
    rewrite (bound_values_lookup _ _ _ _ "y" store_xy_bindings); [done|].
    right. by left.
  - apply (float_subs_Symbol _ "x").
    rewrite (bound_values_lookup _ _ _ _ "x" store_xy_bindings); [done|].
    by left.
Qed.

Lemma store_xy_nominal :
  tree.expr_float
    (tree.subs (tree.Mul (tree.Symbol "x") (tree.Symbol "y"))
       (bound_values (session_state.error_variables session_xy) ["x"; "y"]))
  = Ok (Fin (2 * 3)).
Proof.
  apply (float_mk_mul (tree.subs (tree.Symbol "x") _) (tree.subs (tree.Symbol "y") _)).
  - apply float_subs_Symbol.
    rewrite (bound_values_lookup _ _ _ _ "x" store_xy_bindings); [done|]. by left.
  - apply float_subs_Symbol.
    rewrite (bound_values_lookup _ _ _ _ "y" store_xy_bindings); [done|].
    right. by left.
Qed.

Lemma propagated_error_is_root_sum_square_witness :
  ∃ pct ss',
    calculation (S := tree_sympy tree.sample_sympify)
      (tree.Mul (tree.Symbol "x") (tree.Symbol "y")) ["x"; "y"] session_xy
    = (Ok (Shown (PyFloat (Fin (2 * 3)))
             (Fin (sqrt (Rsum ((λ v, ((if decide (v = "x") then 3 else 2)
                                      * (if decide (v = "x") then 1 / 10 else 2 / 10)) ^ 2)
                                 <$> ["x"; "y"]))))
             pct), ss') ∧
    session_state.propagated_error ss'
    = Some (Fin (sqrt (Rsum ((λ v, ((if decide (v = "x") then 3 else 2)
                                    * (if decide (v = "x") then 1 / 10 else 2 / 10)) ^ 2)
                               <$> ["x"; "y"])))).
Proof.
  apply (propagated_error_is_root_sum_square
           (S := tree_sympy tree.sample_sympify) (tree_laws _)
           (tree.Mul (tree.Symbol "x") (tree.Symbol "y")) ["x"; "y"] session_xy
           (λ v, if decide (v = "x") then 2 else 3)
           (λ v, if decide (v = "x") then 1 / 10 else 2 / 10)
           (λ v, if decide (v = "x") then 3 else 2)).
  - apply store_xy_bindings.
  - intros v Hv. case_decide; lra.
  - apply store_xy_nominal.
  - apply store_xy_partials.
Defined.

Lemma percentage_error_absent_iff_zero_witness :
  ∃ err pct ss',
    calculation (S := tree_sympy tree.sample_sympify)
      (tree.Mul (tree.Symbol "x") (tree.Symbol "y")) ["x"; "y"] session_xy
    = (Ok (Shown (PyFloat (Fin (2 * 3))) (Fin err) pct), ss') ∧
    session_state.percentage_error ss' = pct ∧
    pct = Some (Fin (err / Rabs (2 * 3) * 100)).
Proof.
  pose proof (calculation_real (S := tree_sympy tree.sample_sympify)
                (tree_laws _)
                (tree.Mul (tree.Symbol "x") (tree.Symbol "y")) ["x"; "y"]
                session_xy _ _ _ (2 * 3)
                store_xy_bindings store_xy_nominal store_xy_partials) as Hrun.
  cbv zeta in Hrun.
  eexists _, _, _. split; [exact Hrun|].
  destruct (percentage_error_absent_iff_zero
              (S := tree_sympy tree.sample_sympify) (tree_laws _)
              _ _ _ _ _ _ _ Hrun) as (Hst & _ & _ & Hpct).
  split; [exact Hst|]. apply Hpct; [reflexivity..|lra].
Defined.


Lemma additive_propagation_symmetric_witness :
  let err := Fin (sqrt ((1 / 10) ^ 2 + (2 / 10) ^ 2)) in
  (∃ res pct, basic_page true Addition 2 (1 / 10) (-3) (2 / 10) 0
              = Shown res err pct) ∧
  (∃ res pct, basic_page true Subtraction 2 (1 / 10) (-3) (2 / 10) 0
              = Shown res err pct) ∧
  (∃ res pct,
     (calculation (S := tree_sympy tree.sample_sympify)
        (general_expr Addition 0) ["A"; "B"]
        (operands 2 (1 / 10) (-3) (2 / 10))).1 = Ok (Shown res err pct)) ∧
  (∃ res pct,
     (calculation (S := tree_sympy tree.sample_sympify)
        (general_expr Subtraction 0) ["A"; "B"]
        (operands 2 (1 / 10) (-3) (2 / 10))).1 = Ok (Shown res err pct)).
Proof.
  apply additive_propagation_symmetric; lra.
Defined.

(** * Further properties of the page *)

(** ** Basic Operations: what a press of the button can end in *)

Lemma display_results_outcome (l : basic_locals) :
  (∃ res err pct,
     result l = Some res ∧ propagated_error l = Some err ∧
     display_results l = Ok (Shown res err pct)) ∨
  ((result l = None ∨ propagated_error l = None) ∧
   display_results l
   = Ok (ErrorBox "Unable to calculate result or error. Check your inputs.")).
Proof.
  destruct l as [[res|] [err|] formula]; cbn [result propagated_error].
  - left. destruct (display_results_shows res err formula) as [pct Hd]. eauto 6.
  - right. split; [by right|done].
  - right. split; [by left|done].
  - right. split; [by left|done].
Qed.

Lemma py_pow_raises_iff (a n : R) :
  (∃ e, py_pow a n = Raise e) ↔ a = 0 ∧ n < 0.
Proof.
  unfold py_pow. split.
  - intros [e He]. repeat case_decide; try done.
  - intros [-> Hn]. rewrite decide_False by lra. rewrite decide_True by done.
    rewrite decide_True by done. eauto.
Qed.

Lemma py_pow_ok (a n : R) :
  ¬ (a = 0 ∧ n < 0) → ∃ res, py_pow a n = Ok res.
Proof. intros Hn. unfold py_pow. repeat case_decide; eauto. tauto. Qed.

Ltac by_cases :=
  unfold not; intros;
  repeat match goal with
         | H : _ ∧ _ |- _ => destruct H
         | H : _ ∨ _ |- _ => destruct H
         end;
  first [congruence | lra | tauto].

(** The locals of lines 262-316 in each case. *)
Lemma basic_operations_cases (op : operation) (a ua b ub n : R) :
  (op = Power ∧ a = 0 ∧ n < 0 ∧
   ∃ e, basic_operations op a ua b ub n = Raise e) ∨
  (¬ (op = Power ∧ a = 0 ∧ n < 0) ∧
   ∃ l, basic_operations op a ua b ub n = Ok l ∧
        (result l = None ↔ op = Division ∧ b = 0) ∧
        (propagated_error l = None
         ↔ (op = Multiplication ∧ (a = 0 ∨ b = 0)) ∨
           (op = Division ∧ (a = 0 ∨ b = 0)) ∨
           (op = Power ∧ a = 0))).
Proof.
  destruct op; unfold basic_operations.
  - right. split; [by_cases|].
    rewrite math_sqrt_nonneg by apply sum_squares_nonneg.
    eexists. split; [reflexivity|]. cbn. split; split; by_cases.
  - right. split; [by_cases|].
    rewrite math_sqrt_nonneg by apply sum_squares_nonneg.
    eexists. split; [reflexivity|]. cbn. split; split; by_cases.
  - right. split; [by_cases|].
    destruct (decide (a ≠ 0 ∧ b ≠ 0)) as [[Ha Hb]|Hab].
    + rewrite !py_div_nonzero by (by apply Rabs_no_R0).
      cbn [mbind mret except_bind except_ret].
      rewrite math_sqrt_nonneg by apply sum_squares_nonneg.
      eexists. split; [reflexivity|]. cbn. split; split; by_cases.
    + eexists. split; [reflexivity|]. cbn. split; split; by_cases.
  - right. split; [by_cases|]. destruct (decide (b ≠ 0)) as [Hb|Hb].
    + rewrite (py_div_nonzero a b) by done.
      cbn [mbind mret except_bind except_ret].
      destruct (decide (a ≠ 0 ∧ b ≠ 0)) as [[Ha _]|Hab].
      * rewrite !py_div_nonzero by (by apply Rabs_no_R0).
        cbn [mbind mret except_bind except_ret].
        rewrite math_sqrt_nonneg by apply sum_squares_nonneg.
        eexists. split; [reflexivity|]. cbn. split; split; by_cases.
      * eexists. split; [reflexivity|]. cbn. split; split; by_cases.
    + apply dec_stable in Hb. eexists. split; [reflexivity|]. cbn.
      split; split; by_cases. 
  - destruct (decide (a = 0 ∧ n < 0)) as [[Ha Hn]|Hok].
    + left. split; [done|]. split; [done|]. split; [done|].
      destruct (proj2 (py_pow_raises_iff a n) (conj Ha Hn)) as [e ->]. eauto.
    + right. split; [tauto|]. destruct (py_pow_ok a n Hok) as [res ->].
      cbn [mbind mret except_bind except_ret].
      destruct (decide (a ≠ 0)) as [Ha|Ha].
      * rewrite py_div_nonzero by (by apply Rabs_no_R0).
        cbn [mbind mret except_bind except_ret].
        eexists. split; [reflexivity|]. cbn. split; split; by_cases.
      * apply dec_stable in Ha. eexists. split; [reflexivity|]. cbn.
        split; split; by_cases.
Qed.

(** X1.  Pressing the button of the Basic Operations calculator ends in an
    uncaught exception exactly for the power of zero with a negative
    exponent (floats are read as exact reals: overflow is not modelled). *)
Theorem basic_page_uncaught_iff (op : operation) (a ua b ub n : R) :
  (∃ e, basic_page true op a ua b ub n = Uncaught e)
  ↔ op = Power ∧ a = 0 ∧ n < 0.
Proof.
  unfold basic_page.
  destruct (basic_operations_cases op a ua b ub n)
    as [(Hop & Ha & Hn & e & ->)|(Hnot & l & -> & _)].
  - cbn. split; [done|eauto].
  - cbn [mbind except_bind]. split; [|done]. intros [e He].
    destruct (display_results_outcome l)
      as [(res & err & pct & _ & _ & Hd)|[_ Hd]]; rewrite Hd in He; done.
Qed.

(** X2.  The calculator answers "Unable to calculate" exactly when an operand
    it divides by is zero: a zero factor of a product, a zero dividend or
    divisor of a quotient, a zero base of a power with a non-negative
    exponent. *)
Theorem basic_page_unable_iff (op : operation) (a ua b ub n : R) :
  (∃ msg, basic_page true op a ua b ub n = ErrorBox msg)
  ↔ (op = Multiplication ∧ (a = 0 ∨ b = 0)) ∨
    (op = Division ∧ (a = 0 ∨ b = 0)) ∨
    (op = Power ∧ a = 0 ∧ 0 <= n).
Proof.
  unfold basic_page.
  destruct (basic_operations_cases op a ua b ub n)
    as [(Hop & Ha & Hn & e & ->)|(Hnot & l & -> & Hres & Herr)].
  - cbn. split; [intros [? ?]; done|].
    intros [[? _]|[[? _]|(_ & _ & ?)]]; [congruence..|lra].
  - cbn [mbind except_bind].
    destruct (display_results_outcome l)
      as [(res & err & pct & Hr & He & ->)|[Hnone ->]].
    + split; [intros [? ?]; done|]. intros Hz. exfalso.
      assert (propagated_error l = None) as Hn; [|congruence].
      apply Herr. destruct Hz as [?|[?|(? & ? & ?)]]; auto.
    + split; [|eauto]. intros _. destruct Hnone as [Hn|Hn].
      * apply Hres in Hn as [-> ->]. right. left. auto.
      * apply Herr in Hn as [?|[?|[-> ->]]]; [auto..|].
        right. right. split; [done|]. split; [done|].
        destruct (Rle_or_lt 0 n); [done|]. exfalso. by apply Hnot.
Qed.

Lemma py_abs_py_pow (a n : R) (res : pynum) :
  py_pow a n = Ok res → ∃ r, py_abs res = Fin r ∧ 0 <= r.
Proof.
  unfold py_pow. intros H.
  repeat case_decide; simplify_eq; cbn [py_abs];
    eexists; (split; [reflexivity|]);
    first [apply Rabs_pos | apply sqrt_pos].
Qed.

Ltac locals_of Hl :=
  cbn [mbind mret except_bind except_ret] in Hl;
  injection Hl as <-; cbn [result propagated_error] in *; simplify_eq.

(** What lines 262-316 leave in [result] and [propagated_error] when both
    are set. *)
Lemma basic_operations_magnitudes (op : operation) (a ua b ub n : R)
    (l : basic_locals) (res : pynum) (err : pyfloat) :
  (op = Power → 0 <= ua) →
  basic_operations op a ua b ub n = Ok l →
  result l = Some res → propagated_error l = Some err →
  ∃ r e, py_abs res = Fin r ∧ 0 <= r ∧ err = Fin e ∧ 0 <= e.
Proof.
  intros Hua Hl Hres Herr. destruct op; unfold basic_operations in Hl.
  - rewrite math_sqrt_nonneg in Hl by apply sum_squares_nonneg.
    locals_of Hl. eexists _, _.
    split; [reflexivity|]. split; [apply Rabs_pos|].
    split; [reflexivity|apply sqrt_pos].
  - rewrite math_sqrt_nonneg in Hl by apply sum_squares_nonneg.
    locals_of Hl. eexists _, _.
    split; [reflexivity|]. split; [apply Rabs_pos|].
    split; [reflexivity|apply sqrt_pos].
  - destruct (decide (a ≠ 0 ∧ b ≠ 0)) as [[Ha Hb]|Hab]; [|by locals_of Hl].
    rewrite !py_div_nonzero in Hl by (by apply Rabs_no_R0).
    cbn [mbind mret except_bind except_ret] in Hl.
    rewrite math_sqrt_nonneg in Hl by apply sum_squares_nonneg.
    locals_of Hl. eexists _, _.
    split; [reflexivity|]. split; [apply Rabs_pos|]. split; [reflexivity|].
    apply Rmult_le_pos; [apply Rabs_pos|apply sqrt_pos].
  - destruct (decide (b ≠ 0)) as [Hb|Hb]; [|by locals_of Hl].
    rewrite (py_div_nonzero a b) in Hl by done.
    cbn [mbind mret except_bind except_ret] in Hl.
    destruct (decide (a ≠ 0 ∧ b ≠ 0)) as [[Ha _]|Hab]; [|by locals_of Hl].
    rewrite !py_div_nonzero in Hl by (by apply Rabs_no_R0).
    cbn [mbind mret except_bind except_ret] in Hl.
    rewrite math_sqrt_nonneg in Hl by apply sum_squares_nonneg.
    locals_of Hl. eexists _, _.
    split; [reflexivity|]. split; [apply Rabs_pos|]. split; [reflexivity|].
    apply Rmult_le_pos; [apply Rabs_pos|apply sqrt_pos].
  - destruct (py_pow a n) as [p|] eqn:Hp; [|done].
    cbn [mbind mret except_bind except_ret] in Hl.
    destruct (decide (a ≠ 0)) as [Ha|Ha]; [|by locals_of Hl].
    rewrite py_div_nonzero in Hl by (by apply Rabs_no_R0).
    locals_of Hl.
    destruct (py_abs_py_pow _ _ _ Hp) as (r & Hr & Hr0). rewrite Hr.
    eexists _, _. split; [reflexivity|]. split; [done|].
    cbn [float_mul]. split; [reflexivity|].
    apply Rmult_le_pos; [done|]. apply Rmult_le_pos; [apply Rabs_pos|].
    apply Rmult_le_pos; [by apply Hua|].
    left. apply Rinv_0_lt_compat. by apply Rabs_pos_lt.
Qed.

(** X3.  Whatever the calculator shows, the propagated uncertainty and the
    percentage error are real numbers that are not negative (for the power
    row: when the uncertainty entered is not negative, which the input
    widget enforces). *)
Theorem basic_page_shows_nonnegative_errors (op : operation)
    (a ua b ub n : R) (res : pynum) (err : pyfloat) (pct : option pyfloat) :
  (op = Power → 0 <= ua) →
  basic_page true op a ua b ub n = Shown res err pct →
  (∃ e, err = Fin e ∧ 0 <= e) ∧
  (∀ p, pct = Some p → ∃ q, p = Fin q ∧ 0 <= q).
Proof.
  intros Hua. unfold basic_page.
  destruct (basic_operations op a ua b ub n) as [l|] eqn:Hl; [|done].
  cbn [mbind except_bind]. unfold display_results.
  destruct (result l) as [res'|] eqn:Hres; [|done].
  destruct (propagated_error l) as [err'|] eqn:Herr; [|done].
  destruct (basic_operations_magnitudes _ _ _ _ _ _ _ _ _ Hua Hl Hres Herr)
    as (r & e & Hr & Hr0 & -> & He0).
  rewrite Hr. cbn [float_div]. destruct (py_ne_zero res').
  - case_decide as Hz; [done|]. cbn. intros [= <- <- <-].
    split; [eauto|]. intros p [= <-]. eexists. split; [reflexivity|].
    apply Rmult_le_pos; [|lra]. apply Rmult_le_pos; [done|].
    left. apply Rinv_0_lt_compat. lra.
  - cbn. intros [= <- <- <-]. split; [eauto|]. done.
Qed.

Lemma basic_page_shows_nonnegative_errors_witness :
  ∃ res err pct,
    basic_page true Power 2 (1 / 10) 0 0 3 = Shown res err pct ∧
    (∃ e, err = Fin e ∧ 0 <= e) ∧
    (∀ p, pct = Some p → ∃ q, p = Fin q ∧ 0 <= q).
Proof.
  assert (∃ res err pct,
            basic_page true Power 2 (1 / 10) 0 0 3 = Shown res err pct)
    as (res & err & pct & Hshown).
  { unfold basic_page, basic_operations.
    rewrite py_pow_real by (try left; lra).
    cbn [mbind mret except_bind except_ret].
    rewrite decide_True by lra.
    rewrite py_div_nonzero by (apply Rabs_no_R0; lra).
    cbn [mbind mret except_bind except_ret].
    destruct (display_results_shows (PyFloat (Fin (real_pow 2 3)))
                (float_mul (py_abs (PyFloat (Fin (real_pow 2 3))))
                   (Fin (Rabs 3 * (1 / 10 / Rabs 2))))
                "Δ(A^n) = |A^n| × |n| × (ΔA/|A|)") as [pct ->].
    eauto. }
  exists res, err, pct. split; [exact Hshown|].
  apply (basic_page_shows_nonnegative_errors Power 2 (1 / 10) 0 0 3 res);
    [intros _; lra|exact Hshown].
Defined.



(** ** What a run of the evaluator writes *)

Lemma keeps_inputs_ret {A : Type} (a : A) : keeps_inputs (mret a : page A).
Proof. by intros ss. Qed.

Lemma keeps_inputs_lift {A : Type} (m : except A) : keeps_inputs (lift m).
Proof. by intros ss. Qed.

Lemma keeps_inputs_getitem (name : string) : keeps_inputs (getitem name).
Proof.
  intros ss. unfold getitem.
  by destruct (session_state.error_variables ss !! name).
Qed.

Lemma keeps_inputs_set_propagated_error (x : option pyfloat) :
  keeps_inputs (set_propagated_error x).
Proof. by intros ss. Qed.

Lemma keeps_inputs_set_percentage_error (x : option pyfloat) :
  keeps_inputs (set_percentage_error x).
Proof. by intros ss. Qed.

Lemma keeps_inputs_bind {A B : Type} (m : page A) (f : A → page B) :
  keeps_inputs m → (∀ a, keeps_inputs (f a)) → keeps_inputs (m ≫= f).
Proof.
  intros Hm Hf ss. unfold mbind, page_bind.
  destruct (Hm ss) as [H1 H2]. destruct (m ss) as [[a|e] s1]; [|done].
  destruct (Hf a s1) as [H3 H4]. cbn [snd] in *. split; congruence.
Qed.

Lemma keeps_inputs_try_except {A : Type} (body : page A)
    (handler : exn → page A) :
  keeps_inputs body → (∀ e, keeps_inputs (handler e)) →
  keeps_inputs (try_except body handler).
Proof.
  intros Hm Hf ss. unfold try_except.
  destruct (Hm ss) as [H1 H2]. destruct (body ss) as [[a|e] s1]; [done|].
  destruct (Hf e s1) as [H3 H4]. cbn [snd] in *. split; congruence.
Qed.

Lemma keeps_inputs_build_subs_dict (variables : list string)
    (d : gmap string R) :
  keeps_inputs (build_subs_dict variables d).
Proof.
  revert d. induction variables as [|var rest IH]; intros d.
  - apply keeps_inputs_ret.
  - apply keeps_inputs_bind; [apply keeps_inputs_getitem|]. intros b. apply IH.
Qed.

Section Writes.
Context {Expr : Type} {S : Sympy Expr}.

Lemma keeps_inputs_error_squared_sum (expr : Expr) (subs_dict : gmap string R)
    (variables : list string) (acc : Expr) :
  keeps_inputs (error_squared_sum expr subs_dict variables acc).
Proof.
  revert acc. induction variables as [|var rest IH]; intros acc.
  - apply keeps_inputs_ret.
  - apply keeps_inputs_bind; [apply keeps_inputs_getitem|]. intros b. apply IH.
Qed.

Lemma keeps_inputs_calculation (expr : Expr) (variables : list string) :
  keeps_inputs (calculation expr variables).
Proof.
  unfold calculation. apply keeps_inputs_try_except.
  - apply keeps_inputs_bind; [apply keeps_inputs_build_subs_dict|]. intros d.
    apply keeps_inputs_bind; [apply keeps_inputs_error_squared_sum|].
    intros total.
    apply keeps_inputs_bind; [apply keeps_inputs_lift|]. intros err.
    apply keeps_inputs_bind; [apply keeps_inputs_set_propagated_error|].
    intros _. apply keeps_inputs_bind.
    { destruct (expr_ne _ 0); [|apply keeps_inputs_ret].
      apply keeps_inputs_bind; [apply keeps_inputs_lift|]. intros f.
      apply keeps_inputs_bind; [apply keeps_inputs_lift|]. intros q.
      apply keeps_inputs_ret. }
    intros pct.
    apply keeps_inputs_bind; [apply keeps_inputs_set_percentage_error|].
    intros _. apply keeps_inputs_bind; [apply keeps_inputs_lift|].
    intros f. apply keeps_inputs_ret.
  - intros e. apply keeps_inputs_ret.
Qed.

(** The run of the branch up to the button. *)
Lemma complex_function_to_calculation (order : gset string → list string)
    (text : string) (widgets : gmap string R) (clicked : bool)
    (ss : session_state.t) (expr : Expr) :
  sympify text = Ok expr →
  let variables := sorted (order (free_symbols expr)) in
  variables ≠ [] →
  let ready :=
    session_state.mk text
      (input_values widgets variables
         (reconcile (session_state.error_variables ss) variables))
      (session_state.propagated_error ss)
      (session_state.percentage_error ss) in
  complex_function order text widgets clicked ss
  = if clicked then calculation expr variables ready
    else (Ok NotCalculated, ready).
Proof.
  intros He variables Hne ready.
  assert (∃ o s', (if clicked then calculation expr variables ready
                   else (Ok NotCalculated, ready)) = (Ok o, s'))
    as (o & s' & Hend).
  { destruct clicked; [apply try_except_reports|eauto]. }
  rewrite Hend. unfold complex_function.
  eapply page_bind_ok; [reflexivity|].
  apply try_except_ok.
  eapply page_bind_ok; [unfold lift; by rewrite He|].
  fold variables.
  eapply page_bind_ok; [reflexivity|].
  eapply page_bind_ok; [reflexivity|].
  eapply page_bind_ok.
  { unfold lift, st_columns. rewrite decide_False; [reflexivity|].
    by destruct variables. }
  eapply page_bind_ok.
  { apply populate_inputs_run. intros v Hv. cbn [session_state.error_variables].
    rewrite reconcile_entry.
    destruct (session_state.error_variables ss !! v); [eauto|].
    rewrite decide_True by done. eauto. }
  cbn [session_state.error_variables session_state.error_formula
       session_state.propagated_error session_state.percentage_error].
  rewrite bool_decide_eq_true_2 by done. rewrite andb_true_r.
  fold ready. by destruct clicked.
Qed.

End Writes.

Lemma number_input_idemp (widgets : gmap string R) (key : string) (v : R) :
  number_input widgets key (number_input widgets key v)
  = number_input widgets key v.
Proof. unfold number_input. by destruct (widgets !! key). Qed.

Lemma typed_idemp (widgets : gmap string R) (var : string) (b : binding) :
  typed widgets var (typed widgets var b) = typed widgets var b.
Proof. unfold typed. cbn [value uncertainty]. by rewrite !number_input_idemp. Qed.

Lemma input_values_lookup (widgets : gmap string R) (variables : list string)
    (d : gmap string binding) (name : string) :
  input_values widgets variables d !! name
  = match d !! name with
    | Some b => Some (if decide (name ∈ variables) then typed widgets name b
                      else b)
    | None => None
    end.
Proof.
  unfold input_values. revert d.
  induction variables as [|var rest IH]; intros d.
  - cbn [foldl]. destruct (d !! name); [|done].
    by rewrite decide_False by apply not_elem_of_nil.
  - cbn [foldl]. rewrite IH. destruct (decide (name = var)) as [->|Hne].
    + destruct (d !! var) as [b|] eqn:Hb; [|by rewrite Hb].
      rewrite lookup_insert_eq. fold (typed widgets var b).
      rewrite (decide_True (P := var ∈ var :: rest)) by (by left).
      destruct (decide (var ∈ rest)); [by rewrite typed_idemp|done].
    + assert (name ∈ var :: rest ↔ name ∈ rest) as Hiff.
      { rewrite elem_of_cons.
        split; [intros [?|?]; [congruence|done] | by right]. }
      destruct (d !! var) as [b|] eqn:Hb; rewrite ?lookup_insert_ne by done;
        (destruct (d !! name); [|done]); by rewrite (decide_ext _ _ _ _ Hiff).
Qed.

Lemma reconcile_app (d : gmap string binding) (v1 v2 : list string) :
  reconcile (reconcile d v1) v2 = reconcile d (v1 ++ v2).
Proof.
  apply map_eq. intros name. rewrite !reconcile_entry.
  destruct (d !! name) as [b|]; [done|].
  destruct (decide (name ∈ v1)) as [H1|H1].
  - rewrite decide_True; [done|]. apply elem_of_app. by left.
  - destruct (decide (name ∈ v2)) as [H2|H2].
    + rewrite decide_True; [done|]. apply elem_of_app. by right.
    + rewrite decide_False; [done|]. rewrite elem_of_app. tauto.
Qed.

(** X5.  Reconciling twice is reconciling once with both lists of variables,
    and repeating a reconciliation changes nothing: a rerun of the page with
    the same expression leaves the dictionary as it is. *)
Theorem reconcile_composes (d : gmap string binding) (v1 v2 : list string) :
  reconcile (reconcile d v1) v2 = reconcile d (v1 ++ v2) ∧
  reconcile (reconcile d v1) v1 = reconcile d v1.
Proof.
  split; [apply reconcile_app|].
  apply map_eq. intros name. rewrite !reconcile_entry.
  destruct (d !! name) as [b|]; [done|]. by destruct (decide (name ∈ v1)).
Qed.

Lemma float_sqrt_nonneg (x err : pyfloat) :
  float_sqrt x = Ok err → err = NaN ∨ ∃ e, err = Fin e ∧ 0 <= e.
Proof.
  destruct x as [r|]; cbn [float_sqrt]; [|intros [= <-]; by left].
  unfold math_sqrt. case_decide; [done|]. cbn. intros [= <-].
  right. eexists. split; [done|apply sqrt_pos].
Qed.

Lemma build_subs_dict_state (variables : list string) (d : gmap string R)
    (ss : session_state.t) :
  (build_subs_dict variables d ss).2 = ss.
Proof.
  revert d. induction variables as [|var rest IH]; intros d; [done|].
  cbn [build_subs_dict]. unfold mbind, page_bind, getitem.
  destruct (session_state.error_variables ss !! var); [apply IH|done].
Qed.

Section Outputs.
Context {Expr : Type} {S : Sympy Expr}.

Lemma error_squared_sum_state (expr : Expr) (subs_dict : gmap string R)
    (variables : list string) (acc : Expr) (ss : session_state.t) :
  (error_squared_sum expr subs_dict variables acc ss).2 = ss.
Proof.
  revert acc. induction variables as [|var rest IH]; intros acc; [done|].
  cbn [error_squared_sum]. unfold mbind, page_bind, getitem.
  destruct (session_state.error_variables ss !! var); [apply IH|done].
Qed.

(** X6.  Whenever the evaluator shows a result, the uncertainty on the screen
    is the one stored in the session, and it is nan or a real number that is
    not negative; so is the percentage error when there is one. *)
Theorem shown_uncertainty_is_stored_and_nonnegative (expr : Expr)
    (variables : list string) (ss ss' : session_state.t)
    (res : pynum) (err : pyfloat) (pct : option pyfloat) :
  calculation expr variables ss = (Ok (Shown res err pct), ss') →
  session_state.propagated_error ss' = Some err ∧
  (err = NaN ∨ ∃ e, err = Fin e ∧ 0 <= e) ∧
  (∀ p, pct = Some p → p = NaN ∨ ∃ q, p = Fin q ∧ 0 <= q).
Proof.
  unfold calculation. intros Hbody%try_except_shown.
  apply page_bind_inv in Hbody as (subs_dict & s2 & _ & Hbody).
  apply page_bind_inv in Hbody as (total & s3 & _ & Hbody).
  apply page_bind_inv in Hbody as (err' & s4 & Herr & Hbody).
  apply page_bind_inv in Hbody as ([] & s5 & Hset1 & Hbody).
  apply page_bind_inv in Hbody as (pct' & s6 & Hpct & Hbody).
  apply page_bind_inv in Hbody as ([] & s7 & Hset & Hbody).
  apply page_bind_inv in Hbody as (f & s8 & Hf & Hbody).
  injection Hbody as <- -> -> ->.
  injection Hset as <-. unfold lift in Hf. injection Hf as Hf <-.
  injection Hset1 as <-. unfold lift in Herr. injection Herr as Herr _.
  assert (err = NaN ∨ ∃ e, err = Fin e ∧ 0 <= e) as Hnn.
  { destruct (expr_float total) as [x|]; [|done]. by apply (float_sqrt_nonneg x). }
  assert (session_state.propagated_error s6 = Some err) as Hst.
  { destruct (expr_ne _ 0).
    - apply page_bind_inv in Hpct as (f' & s9 & Hf' & Hpct).
      apply page_bind_inv in Hpct as (q & s10 & Hq & Hpct).
      unfold lift in Hf', Hq. injection Hpct as _ <-.
      injection Hq as _ <-. by injection Hf' as _ <-.
    - by injection Hpct as _ <-. }
  split; [done|]. split; [done|]. intros p ->.
  destruct (expr_ne _ 0); [|done].
  apply page_bind_inv in Hpct as (f' & s9 & Hf' & Hpct).
  apply page_bind_inv in Hpct as (q & s10 & Hq & Hpct).
  injection Hpct as <- _. unfold lift in Hq. injection Hq as Hq _.
  destruct f' as [n|]; cbn [py_abs float_div] in Hq.
  - case_decide as Hz; [done|]. injection Hq as <-.
    destruct Hnn as [->|(e & -> & He)]; [by left|right].
    eexists. split; [reflexivity|].
    apply Rmult_le_pos; [|lra]. apply Rmult_le_pos; [done|].
    left. apply Rinv_0_lt_compat. pose proof (Rabs_pos n). lra.
  - injection Hq as <-. by left.
Qed.

(** X7.  A calculation that ends in its error box never touches the stored
    percentage error; the stored propagated error is either untouched too or
    already overwritten by the new value (nan, or a real that is not
    negative). *)
Theorem failed_calculation_keeps_percentage (L : SympyLaws S) (expr : Expr)
    (variables : list string) (ss ss' : session_state.t) (msg : string) :
  calculation expr variables ss = (Ok (ErrorBox msg), ss') →
  session_state.percentage_error ss' = session_state.percentage_error ss ∧
  (session_state.propagated_error ss' = session_state.propagated_error ss ∨
   ∃ err, session_state.propagated_error ss' = Some err ∧
          (err = NaN ∨ ∃ e, err = Fin e ∧ 0 <= e)).
Proof.
  unfold calculation, try_except. unfold mbind at 1, page_bind at 1.
  pose proof (build_subs_dict_state variables ∅ ss) as H1.
  destruct (build_subs_dict variables ∅ ss) as [[d|e1] s1]; cbn [snd] in H1;
    subst s1; [|intros [= _ <-]; auto].
  unfold mbind at 1, page_bind at 1.
  pose proof (error_squared_sum_state expr d variables (sympify_int 0) ss) as H2.
  destruct (error_squared_sum expr d variables (sympify_int 0) ss)
    as [[total|e2] s2]; cbn [snd] in H2; subst s2; [|intros [= _ <-]; auto].
  unfold mbind at 1, page_bind at 1, lift at 1.
  destruct (expr_float total ≫= float_sqrt) as [err|e3] eqn:Herr;
    [|intros [= _ <-]; auto].
  assert (err = NaN ∨ ∃ e, err = Fin e ∧ 0 <= e) as Hnn.
  { destruct (expr_float total) as [x|]; [|done]. by apply (float_sqrt_nonneg x). }
  unfold mbind at 1, page_bind at 1, set_propagated_error at 1.
  unfold mbind at 1, page_bind at 1.
  destruct (expr_ne (subs expr d) 0) eqn:Hne.
  - unfold mbind at 1, page_bind at 1, lift at 1.
    destruct (expr_float (subs expr d)) as [f|e4] eqn:Hf;
      [|intros [= _ <-]; cbn; eauto].
    unfold mbind at 1, page_bind at 1, lift at 1.
    destruct (float_div err (py_abs (PyFloat f))) as [q|e5];
      [|intros [= _ <-]; cbn; eauto].
    unfold mbind, page_bind, set_percentage_error, lift, mret, page_ret. done.
  - rewrite (eq_zero_float _ L _ Hne).
    unfold mbind, page_bind, set_percentage_error, lift, mret, page_ret. done.
Qed.

End Outputs.

Section Page.
Context {Expr : Type} {S : Sympy Expr}.

(** X8.  When the text parses and has a free symbol, nothing before the
    button fails: reconciliation gives every variable its entry, so the
    input loop meets no missing key, and the run is the calculation (or
    nothing, without a click) on the session that holds the text and the
    entries as typed.  The parse handler never reports an error of the
    calculation. *)
Theorem complex_function_runs_calculation (order : gset string → list string)
    (text : string) (widgets : gmap string R) (clicked : bool)
    (ss : session_state.t) (expr : Expr) :
  sympify text = Ok expr →
  let variables := sorted (order (free_symbols expr)) in
  variables ≠ [] →
  let ready :=
    session_state.mk text
      (input_values widgets variables
         (reconcile (session_state.error_variables ss) variables))
      (session_state.propagated_error ss)
      (session_state.percentage_error ss) in
  complex_function order text widgets clicked ss
  = if clicked then calculation expr variables ready
    else (Ok NotCalculated, ready).
Proof. apply complex_function_to_calculation. Qed.

(** X9.  After a run on a text that parses and has a free symbol, with or
    without a click and whatever the calculation ends in: the session holds
    the text; each variable of the expression holds what was typed into its
    two widgets, and where nothing was typed its previous value, or 0.0 if
    it is new; every other entry of the dictionary is as it was. *)
Theorem inputs_are_stored (order : gset string → list string)
    (text : string) (widgets : gmap string R) (clicked : bool)
    (ss : session_state.t) (expr : Expr) (name : string) :
  sympify text = Ok expr →
  let variables := sorted (order (free_symbols expr)) in
  variables ≠ [] →
  let after := (complex_function order text widgets clicked ss).2 in
  session_state.error_formula after = text ∧
  session_state.error_variables after !! name
  = match session_state.error_variables ss !! name with
    | Some b => Some (if decide (name ∈ variables)
                      then typed widgets name b else b)
    | None => if decide (name ∈ variables)
              then Some (typed widgets name (Binding 0 0)) else None
    end.
Proof.
  intros He variables Hne after. subst after.
  rewrite (complex_function_to_calculation order text widgets clicked ss expr
             He Hne).
  fold variables.
  set (ready := session_state.mk text _ _ _).
  assert (session_state.error_formula ready = text ∧
          session_state.error_variables ready !! name
          = match session_state.error_variables ss !! name with
            | Some b => Some (if decide (name ∈ variables)
                              then typed widgets name b else b)
            | None => if decide (name ∈ variables)
                      then Some (typed widgets name (Binding 0 0)) else None
            end) as Hready.
  { split; [done|]. cbn [ready session_state.error_variables].
    rewrite input_values_lookup, reconcile_entry.
    destruct (session_state.error_variables ss !! name); [done|].
    by destruct (decide (name ∈ variables)). }
  destruct clicked; [|exact Hready].
  destruct (keeps_inputs_calculation expr variables ready) as [-> ->].
  exact Hready.
Qed.

End Page.

Lemma variables_x_times_y :
  sorted (elements (tree.free_symbols
                      (tree.Mul (tree.Symbol "x") (tree.Symbol "y"))))
  = ["x"; "y"].
Proof. vm_compute. reflexivity. Qed.

Lemma complex_function_runs_calculation_witness :
  complex_function (S := tree_sympy tree.sample_sympify) elements "x*y"
    {[ "value_x" := 5 ]} false session_xy
  = (Ok NotCalculated,
     session_state.mk "x*y"
       (input_values {[ "value_x" := 5 ]}
          (sorted (elements (tree.free_symbols
                               (tree.Mul (tree.Symbol "x") (tree.Symbol "y")))))
          (reconcile store_xy
             (sorted (elements (tree.free_symbols
                                  (tree.Mul (tree.Symbol "x") (tree.Symbol "y")))))))
       None None).
Proof.
  apply (complex_function_runs_calculation
           (S := tree_sympy tree.sample_sympify) elements "x*y"
           {[ "value_x" := 5 ]} false session_xy
           (tree.Mul (tree.Symbol "x") (tree.Symbol "y"))).
  - reflexivity.
  - cbn [free_symbols tree_sympy]. by rewrite variables_x_times_y.
Defined.

Lemma inputs_are_stored_witness :
  let after := (complex_function (S := tree_sympy tree.sample_sympify) elements
                  "x*y" {[ "value_x" := 5 ]} true session_xy).2 in
  session_state.error_formula after = "x*y" ∧
  session_state.error_variables after !! "x" = Some (Binding 5 (1 / 10)).
Proof.
  pose proof (inputs_are_stored
                (S := tree_sympy tree.sample_sympify) elements "x*y"
                {[ "value_x" := 5 ]} true session_xy
                (tree.Mul (tree.Symbol "x") (tree.Symbol "y")) "x") as H.
  cbn [free_symbols tree_sympy] in H. rewrite variables_x_times_y in H.
  destruct H as [H1 H2]; [reflexivity|done|].
  split; [exact H1|]. rewrite H2.
  cbn [session_xy session_state.error_variables]. unfold store_xy.
  rewrite lookup_insert_eq. rewrite decide_True by (by left).
  unfold typed, number_input. cbn [value uncertainty].
  rewrite lookup_singleton_eq.
  by rewrite lookup_singleton_ne.
Defined.

(** ** Exact and rescaled inputs *)

Lemma Rsum_scaled_squares (k : R) (f : string → R) (l : list string) :
  Rsum ((λ v, (k * f v) ^ 2) <$> l) = k ^ 2 * Rsum ((λ v, f v ^ 2) <$> l).
Proof.
  induction l as [|v l IH]; [simpl; lra|].
  change (Rsum ((λ v, (k * f v) ^ 2) <$> v :: l))
    with ((k * f v) ^ 2 + Rsum ((λ v, (k * f v) ^ 2) <$> l)).
  change (Rsum ((λ v, f v ^ 2) <$> v :: l))
    with (f v ^ 2 + Rsum ((λ v, f v ^ 2) <$> l)).
  rewrite IH. ring.
Qed.

Lemma Rsum_ext (f g : string → R) (l : list string) :
  (∀ v, f v = g v) → Rsum (f <$> l) = Rsum (g <$> l).
Proof.
  intros H. induction l as [|v l IH]; [done|].
  change (f v + Rsum (f <$> l) = g v + Rsum (g <$> l)). by rewrite H, IH.
Qed.


Section Scaling.
Context {Expr : Type} {S : Sympy Expr}.

(** X10.  Inputs without uncertainty give a result without uncertainty: if
    every variable has uncertainty 0.0, the evaluator shows the propagated
    error 0 (and the percentage error 0 unless the result is zero). *)
Theorem exact_inputs_give_zero_uncertainty (L : SympyLaws S) (expr : Expr)
    (variables : list string) (ss : session_state.t)
    (val partial_value : string → R) (nominal : R) :
  (∀ v, v ∈ variables →
        session_state.error_variables ss !! v = Some (Binding (val v) 0)) →
  expr_float
    (subs expr (bound_values (session_state.error_variables ss) variables))
  = Ok (Fin nominal) →
  (∀ v, v ∈ variables →
        expr_float
          (subs (diff expr v)
             (bound_values (session_state.error_variables ss) variables))
        = Ok (Fin (partial_value v))) →
  ∃ ss',
    calculation expr variables ss
    = (Ok (Shown (PyFloat (Fin nominal)) (Fin 0)
             (if decide (nominal = 0) then None else Some (Fin 0))), ss').
Proof.
  intros Hb Hnom Hp.
  pose proof (calculation_real L expr variables ss val (λ _, 0) partial_value
                nominal Hb Hnom Hp) as Hrun.
  cbv beta zeta in Hrun.
  assert (sqrt (Rsum ((λ v, (partial_value v * 0) ^ 2) <$> variables)) = 0)
    as Hz.
  { rewrite (Rsum_ext _ (λ v, (0 * partial_value v) ^ 2)) by (intros v; ring).
    rewrite (Rsum_scaled_squares 0 partial_value).
    replace (0 ^ 2 * _) with 0 by ring. apply sqrt_0. }
  rewrite Hz in Hrun. eexists. rewrite Hrun. do 3 f_equal.
  destruct (decide (nominal = 0)); [done|]. do 2 f_equal.
  field. by apply Rabs_no_R0.
Qed.


End Scaling.

(** ** A zero divisor in the evaluator, in general *)




Section ProductOfOperands.
Context (parse : string → except tree.expr) (a ua b ub : R).

Lemma product_nominal :
  tree.expr_float
    (tree.subs (tree.Mul (tree.Symbol "A") (tree.Symbol "B"))
       (bound_values (session_state.error_variables (operands a ua b ub))
          ["A"; "B"]))
  = Ok (Fin (a * b)).
Proof.
  destruct (values_AB a ua b ub) as [HA HB].
  apply (float_mk_mul (tree.subs (tree.Symbol "A") _)
           (tree.subs (tree.Symbol "B") _)); by apply float_subs_Symbol.
Qed.

Lemma product_partials (v : string) :
  v ∈ ["A"; "B"] →
  tree.expr_float
    (tree.subs (tree.diff (tree.Mul (tree.Symbol "A") (tree.Symbol "B")) v)
       (bound_values (session_state.error_variables (operands a ua b ub))
          ["A"; "B"]))
  = Ok (Fin (of_operand b a v)).
Proof.
  destruct (values_AB a ua b ub) as [HA HB].
  intros [->|[->|[]%not_elem_of_nil]%elem_of_cons]%elem_of_cons.
  - by apply (float_subs_Symbol _ "B").
  - by apply (float_subs_Symbol _ "A").
Qed.

End ProductOfOperands.

Lemma exact_inputs_give_zero_uncertainty_witness :
  ∃ ss',
    calculation (S := tree_sympy tree.sample_sympify)
      (tree.Mul (tree.Symbol "A") (tree.Symbol "B")) ["A"; "B"]
      (operands 2 0 3 0)
    = (Ok (Shown (PyFloat (Fin (2 * 3))) (Fin 0)
             (if decide (2 * 3 = 0) then None else Some (Fin 0))), ss').
Proof.
  apply (exact_inputs_give_zero_uncertainty
           (S := tree_sympy tree.sample_sympify) (tree_laws _)
           (tree.Mul (tree.Symbol "A") (tree.Symbol "B")) ["A"; "B"]
           (operands 2 0 3 0) (of_operand 2 3) (of_operand 3 2)).
  - intros v Hv. rewrite (operands_bindings 2 0 3 0 v Hv). do 2 f_equal.
    unfold of_operand. by case_decide.
  - apply product_nominal.
  - apply product_partials.
Defined.


Lemma shown_uncertainty_is_stored_and_nonnegative_witness :
  ∃ err pct ss',
    calculation (S := tree_sympy tree.sample_sympify)
      (tree.Mul (tree.Symbol "x") (tree.Symbol "y")) ["x"; "y"] session_xy
    = (Ok (Shown (PyFloat (Fin (2 * 3))) err pct), ss') ∧
    session_state.propagated_error ss' = Some err ∧
    (err = NaN ∨ ∃ e, err = Fin e ∧ 0 <= e).
Proof.
  pose proof (calculation_real (S := tree_sympy tree.sample_sympify)
                (tree_laws _)
                (tree.Mul (tree.Symbol "x") (tree.Symbol "y")) ["x"; "y"]
                session_xy _ _ _ (2 * 3)
                store_xy_bindings store_xy_nominal store_xy_partials) as Hrun.
  cbv zeta in Hrun.
  eexists _, _, _. split; [exact Hrun|].
  destruct (shown_uncertainty_is_stored_and_nonnegative
              (S := tree_sympy tree.sample_sympify)
              _ _ _ _ _ _ _ Hrun) as (Hst & Hnn & _).
  split; [exact Hst|exact Hnn].
Defined.

Lemma failed_calculation_keeps_percentage_witness :
  let ss := session_state.mk "a/b"
              {[ "a" := Binding 1 (1 / 10); "b" := Binding 0 (1 / 10) ]}
              (Some (Fin 1)) (Some (Fin 50)) in
  ∃ msg ss',
    calculation (S := tree_sympy tree.sample_sympify)
      (tree.Mul (tree.Symbol "a") (tree.Pow (tree.Symbol "b") (-1)))
      ["a"; "b"] ss = (Ok (ErrorBox msg), ss') ∧
    session_state.percentage_error ss' = Some (Fin 50).
Proof.
  intros ss.
  assert (calculation (S := tree_sympy tree.sample_sympify)
            (tree.Mul (tree.Symbol "a") (tree.Pow (tree.Symbol "b") (-1)))
            ["a"; "b"] ss
          = (Ok (ErrorBox (calculation_error
                             (TypeError "Cannot convert complex to float"))),
             session_state.mk (session_state.error_formula ss)
               (session_state.error_variables ss) (Some NaN)
               (session_state.percentage_error ss))) as Hrun.
  { apply (calculation_division_by_zero _ ss 1 (1 / 10) (1 / 10)).
    - lra.
    - cbn [ss session_state.error_variables]. by rewrite lookup_insert_eq.
    - cbn [ss session_state.error_variables].
      by rewrite lookup_insert_ne, lookup_singleton_eq. }
  eexists _, _. split; [exact Hrun|].
  apply (proj1 (failed_calculation_keeps_percentage
                  (S := tree_sympy tree.sample_sympify) (tree_laws _)
                  _ _ _ _ _ Hrun)).
Defined.

(** ** The lists of errors *)

Section ErrorListProperties.
Context {char : Type} `{EqDecision char}.
Context (isspace : char → bool) (newline : char).

Lemma str_split_nonempty (sep : char) (s : list char) : str_split sep s ≠ [].
Proof.
  destruct s as [|c rest]; [done|]. cbn [str_split].
  case_decide; [done|]. by destruct (str_split sep rest).
Qed.

Lemma str_split_no_sep (sep : char) (s line : list char) :
  line ∈ str_split sep s → sep ∉ line.
Proof.
  revert line. induction s as [|c rest IH]; intros line; cbn [str_split].
  - intros ->%list_elem_of_singleton. apply not_elem_of_nil.
  - case_decide as Hc.
    + intros [->|Hin]%elem_of_cons; [apply not_elem_of_nil|by apply IH].
    + destruct (str_split sep rest) as [|l0 ls] eqn:Hs.
      { by destruct (str_split_nonempty sep rest). }
      intros [->|Hin]%elem_of_cons.
      * intros [?|?]%elem_of_cons; [congruence|].
        by apply (IH l0); [left|].
      * apply IH. by right.
Qed.

Lemma str_split_line (sep : char) (line : list char) :
  sep ∉ line → str_split sep line = [line].
Proof.
  induction line as [|c rest IH]; [done|]. intros Hn. cbn [str_split].
  rewrite decide_False by (intros ->; apply Hn; by left).
  rewrite IH; [done|]. intros ?. apply Hn. by right.
Qed.

Lemma str_split_app (sep : char) (line rest : list char) :
  sep ∉ line →
  str_split sep (line ++ sep :: rest) = line :: str_split sep rest.
Proof.
  induction line as [|c line IH]; intros Hn.
  - cbn [app str_split]. by rewrite decide_True.
  - cbn [app str_split].
    rewrite decide_False by (intros ->; apply Hn; by left).
    rewrite IH; [done|]. intros ?. apply Hn. by right.
Qed.

(** Joining lines and splitting again gives the lines back. *)
Lemma str_split_join (sep : char) (lines : list (list char)) :
  lines ≠ [] → (∀ line, line ∈ lines → sep ∉ line) →
  str_split sep (str_join sep lines) = lines.
Proof.
  induction lines as [|line lines IH]; [done|]. intros _ Hn.
  destruct lines as [|line' lines].
  - apply str_split_line, Hn. by left.
  - change (str_join sep (line :: line' :: lines))
      with (line ++ sep :: str_join sep (line' :: lines)).
    rewrite str_split_app by (apply Hn; by left).
    rewrite IH; [done..|]. intros l Hl. apply Hn. by right.
Qed.

Lemma str_lstrip_elem (s : list char) (c : char) :
  c ∈ str_lstrip isspace s → c ∈ s.
Proof.
  induction s as [|c' rest IH]; [done|]. cbn [str_lstrip].
  destruct (isspace c'); [|done]. intros ?. right. by apply IH.
Qed.

Lemma str_rstrip_elem (s : list char) (c : char) :
  c ∈ str_rstrip isspace s → c ∈ s.
Proof.
  revert c. induction s as [|c' rest IH]; intros c; [done|].
  cbn [str_rstrip]. destruct (str_rstrip isspace rest) as [|k ks].
  - destruct (isspace c'); [by intros ?%not_elem_of_nil|].
    intros ->%list_elem_of_singleton. by left.
  - intros [->|Hin]%elem_of_cons; [by left|]. right. by apply IH.
Qed.

Lemma str_strip_elem (s : list char) (c : char) :
  c ∈ str_strip isspace s → c ∈ s.
Proof. intros ?%str_rstrip_elem. by apply str_lstrip_elem. Qed.

Lemma str_lstrip_idemp (s : list char) :
  str_lstrip isspace (str_lstrip isspace s) = str_lstrip isspace s.
Proof.
  induction s as [|c rest IH]; [done|]. cbn [str_lstrip].
  destruct (isspace c) eqn:Hc; [done|]. cbn [str_lstrip]. by rewrite Hc.
Qed.

Lemma str_rstrip_idemp (s : list char) :
  str_rstrip isspace (str_rstrip isspace s) = str_rstrip isspace s.
Proof.
  induction s as [|c rest IH]; [done|]. cbn [str_rstrip].
  destruct (str_rstrip isspace rest) as [|k ks] eqn:Hr.
  - destruct (isspace c) eqn:Hc; [done|]. cbn [str_rstrip]. by rewrite Hc.
  - cbn [str_rstrip] in *. by rewrite IH.
Qed.

Lemma str_strip_comm (s : list char) :
  str_lstrip isspace (str_rstrip isspace s)
  = str_rstrip isspace (str_lstrip isspace s).
Proof.
  induction s as [|c rest IH]; [done|]. cbn [str_lstrip str_rstrip].
  destruct (isspace c) eqn:Hc.
  - destruct (str_rstrip isspace rest) as [|k ks] eqn:Hr.
    + by rewrite <- IH.
    + cbn [str_lstrip]. by rewrite Hc.
  - cbn [str_rstrip].
    destruct (str_rstrip isspace rest) as [|k ks] eqn:Hr;
      cbn [str_lstrip]; by rewrite Hc.
Qed.

Lemma str_strip_idemp (s : list char) :
  str_strip isspace (str_strip isspace s) = str_strip isspace s.
Proof.
  unfold str_strip.
  by rewrite str_strip_comm, str_rstrip_idemp, str_lstrip_idemp.
Qed.

(** A stripped text neither begins nor ends with a space. *)
Lemma str_lstrip_head (s : list char) (c : char) (rest : list char) :
  str_lstrip isspace s = c :: rest → isspace c = false.
Proof.
  induction s as [|c' s IH]; [done|]. cbn [str_lstrip].
  destruct (isspace c') eqn:Hc; [done|]. by intros [= <- _].
Qed.

Lemma str_rstrip_last (s : list char) (c : char) :
  last (str_rstrip isspace s) = Some c → isspace c = false.
Proof.
  induction s as [|c' s IH]; [done|]. cbn [str_rstrip].
  destruct (str_rstrip isspace s) as [|k ks] eqn:Hr.
  - destruct (isspace c') eqn:Hc; [done|]. by intros [= <-].
  - done.
Qed.

Lemma str_strip_ends (s : list char) :
  (∀ c, head (str_strip isspace s) = Some c → isspace c = false) ∧
  (∀ c, last (str_strip isspace s) = Some c → isspace c = false).
Proof.
  split; [|apply str_rstrip_last].
  unfold str_strip. rewrite <- str_strip_comm. intros c Hc.
  destruct (str_lstrip isspace (str_rstrip isspace s)) as [|c' rest] eqn:Hl;
    [done|].
  injection Hc as ->. by apply (str_lstrip_head _ _ _ Hl).
Qed.

Lemma parse_errors_elem (edited entry : list char) :
  entry ∈ parse_errors isspace newline edited →
  entry ≠ [] ∧ str_strip isspace entry = entry ∧ newline ∉ entry.
Proof.
  unfold parse_errors.
  intros Hin. apply list_elem_of_fmap in Hin as (line & -> & Hin).
  apply list_elem_of_filter in Hin as [Hne Hline].
  split; [done|]. split; [apply str_strip_idemp|].
  intros Hin%str_strip_elem. by apply (str_split_no_sep newline edited line).
Qed.

Lemma parse_errors_join (errors : list (list char)) :
  (∀ entry, entry ∈ errors →
            entry ≠ [] ∧ str_strip isspace entry = entry ∧ newline ∉ entry) →
  parse_errors isspace newline (str_join newline errors) = errors.
Proof.
  intros Hclean. unfold parse_errors. destruct errors as [|e errors]; [done|].
  rewrite str_split_join; [|done|intros l Hl; by apply Hclean].
  revert Hclean. generalize (e :: errors). clear e errors.
  intros l. induction l as [|e l IH]; intros Hclean; [done|].
  destruct (Hclean e) as (Hne & Hst & _); [by left|].
  rewrite filter_cons_True by (by rewrite Hst).
  rewrite fmap_cons, Hst. f_equal. apply IH. intros x Hx. apply Hclean. by right.
Qed.

(** X13.  Whatever the text area holds, every entry the page stores in a list
    of errors is non-empty, contains no line break, and neither begins nor
    ends with white space: blank lines are dropped and the others stripped. *)
Theorem stored_errors_are_clean (typed : option (list char))
    (stored : stored_errors) (entry : list char) :
  entry ∈ identify_errors isspace newline typed stored →
  entry ≠ [] ∧ (newline ∉ entry) ∧
  str_strip isspace entry = entry ∧
  (∀ c, head entry = Some c → isspace c = false) ∧
  (∀ c, last entry = Some c → isspace c = false).
Proof.
  unfold identify_errors. intros Hin.
  apply parse_errors_elem in Hin as (Hne & Hst & Hnl).
  split; [done|]. split; [done|]. split; [done|].
  rewrite <- Hst. apply str_strip_ends.
Qed.

(** X14.  A rerun of the page in which the text area is left alone keeps the
    list the previous run stored, whatever that run started from; in
    particular the empty list of a fresh session stays empty. *)
Theorem untouched_errors_are_kept (typed : option (list char))
    (stored : stored_errors) :
  let errors := identify_errors isspace newline typed stored in
  identify_errors isspace newline None (ErrorList errors) = errors ∧
  identify_errors isspace newline None (ErrorList []) = [].
Proof.
  intros errors. split; [|done].
  unfold identify_errors at 1. cbn [text_area default errors_text].
  apply parse_errors_join. intros entry Hin.
  by apply parse_errors_elem in Hin.
Qed.

(** X15.  A stored list survives the round trip through an untouched text
    area exactly when its entries are clean: non-empty, stripped and without
    line break.  Any other list is changed by merely opening the page. *)
Theorem errors_round_trip_iff_clean (errors : list (list char)) :
  identify_errors isspace newline None (ErrorList errors) = errors
  ↔ ∀ entry, entry ∈ errors →
             entry ≠ [] ∧ str_strip isspace entry = entry ∧ newline ∉ entry.
Proof.
  split; [|apply parse_errors_join].
  intros Hkept entry Hin. rewrite <- Hkept in Hin.
  by apply parse_errors_elem in Hin.
Qed.

End ErrorListProperties.

Lemma stored_errors_are_clean_witness :
  let entry := String.list_ascii_of_string "timing errors" in
  let typed := String.list_ascii_of_string "  timing errors "
               ++ ascii_newline :: ascii_newline
               :: String.list_ascii_of_string " parallax" in
  entry ∈ identify_errors ascii_isspace ascii_newline (Some typed)
            (ErrorList []) ∧
  entry ≠ [] ∧ (ascii_newline ∉ entry) ∧
  str_strip ascii_isspace entry = entry.
Proof.
  intros entry typed.
  assert (entry ∈ identify_errors ascii_isspace ascii_newline (Some typed)
                    (ErrorList [])) as Hin.
  { assert (identify_errors ascii_isspace ascii_newline (Some typed)
              (ErrorList [])
            = [entry; String.list_ascii_of_string "parallax"]) as ->
      by (vm_compute; reflexivity).
    by left. }
  split; [exact Hin|].
  destruct (stored_errors_are_clean ascii_isspace ascii_newline (Some typed)
              (ErrorList []) entry Hin) as (H1 & H2 & H3 & _).
  split; [exact H1|]. split; [exact H2|exact H3].
Defined.

(** ** Repeated measurements *)

Lemma Rsum_cons (x : R) (l : list R) : Rsum (x :: l) = x + Rsum l.
Proof. done. Qed.

Lemma Rsum_nonneg (l : list R) : (∀ x, x ∈ l → 0 <= x) → 0 <= Rsum l.
Proof.
  induction l as [|x l IH]; intros H; [simpl; lra|].
  rewrite Rsum_cons. pose proof (H x ltac:(by left)).
  assert (0 <= Rsum l) by (apply IH; intros y Hy; apply H; by right). lra.
Qed.

Lemma Rsum_deviations_nonneg (m : R) (l : list R) :
  0 <= Rsum ((λ x, (x - m) ^ 2) <$> l).
Proof.
  apply Rsum_nonneg. intros y (x & -> & _)%list_elem_of_fmap. apply pow2_ge_0.
Qed.

Lemma foldl_Rmax_bounds (x : R) (l : list R) :
  x <= foldl Rmax x l ∧ (∀ y, y ∈ l → y <= foldl Rmax x l) ∧
  (foldl Rmax x l = x ∨ foldl Rmax x l ∈ l).
Proof.
  revert x. induction l as [|z l IH]; intros x; cbn [foldl].
  - split; [lra|]. split; [by intros y ?%not_elem_of_nil|by left].
  - destruct (IH (Rmax x z)) as (H1 & H2 & H3).
    pose proof (Rmax_l x z). pose proof (Rmax_r x z).
    split; [lra|]. split.
    + intros y [->|Hy]%elem_of_cons; [lra|by apply H2].
    + destruct H3 as [H3|H3]; [|right; by right]. rewrite H3.
      unfold Rmax. destruct (Rle_dec x z); [right; by left|by left].
Qed.

Lemma foldl_Rmin_bounds (x : R) (l : list R) :
  foldl Rmin x l <= x ∧ (∀ y, y ∈ l → foldl Rmin x l <= y) ∧
  (foldl Rmin x l = x ∨ foldl Rmin x l ∈ l).
Proof.
  revert x. induction l as [|z l IH]; intros x; cbn [foldl].
  - split; [lra|]. split; [by intros y ?%not_elem_of_nil|by left].
  - destruct (IH (Rmin x z)) as (H1 & H2 & H3).
    pose proof (Rmin_l x z). pose proof (Rmin_r x z).
    split; [lra|]. split.
    + intros y [->|Hy]%elem_of_cons; [lra|by apply H2].
    + destruct H3 as [H3|H3]; [|right; by right]. rewrite H3.
      unfold Rmin. destruct (Rle_dec x z); [by left|right; by left].
Qed.

Lemma np_max_bound (a : list R) (x : R) : x ∈ a → x <= np_max a.
Proof.
  destruct a as [|y a]; [by intros ?%not_elem_of_nil|]. cbn [np_max].
  destruct (foldl_Rmax_bounds y a) as (H1 & H2 & _).
  intros [->|Hx]%elem_of_cons; [done|by apply H2].
Qed.

Lemma np_min_bound (a : list R) (x : R) : x ∈ a → np_min a <= x.
Proof.
  destruct a as [|y a]; [by intros ?%not_elem_of_nil|]. cbn [np_min].
  destruct (foldl_Rmin_bounds y a) as (H1 & H2 & _).
  intros [->|Hx]%elem_of_cons; [done|by apply H2].
Qed.

Lemma Rsum_bounds (lo hi : R) (l : list R) :
  (∀ x, x ∈ l → lo <= x <= hi) →
  INR (length l) * lo <= Rsum l <= INR (length l) * hi.
Proof.
  induction l as [|x l IH]; intros H.
  - simpl. lra.
  - rewrite Rsum_cons. change (length (x :: l)) with (Datatypes.S (length l)).
    rewrite S_INR. pose proof (H x ltac:(by left)).
    assert (INR (length l) * lo <= Rsum l <= INR (length l) * hi)
      by (apply IH; intros y Hy; apply H; by right).
    lra.
Qed.

Lemma length_pos_INR (a : list R) : a ≠ [] → 0 < INR (length a).
Proof. intros Ha. apply lt_0_INR. destruct a; [done|simpl; lia]. Qed.

Lemma np_mean_between (a : list R) :
  a ≠ [] → np_min a <= np_mean a <= np_max a.
Proof.
  intros Ha. pose proof (length_pos_INR a Ha) as Hn.
  destruct (Rsum_bounds (np_min a) (np_max a) a) as [Hlo Hhi].
  { intros x Hx. split; [by apply np_min_bound|by apply np_max_bound]. }
  unfold np_mean. split.
  - apply Rmult_le_reg_l with (INR (length a)); [done|].
    replace (INR (length a) * (Rsum a / INR (length a))) with (Rsum a)
      by (field; lra). done.
  - apply Rmult_le_reg_l with (INR (length a)); [done|].
    replace (INR (length a) * (Rsum a / INR (length a))) with (Rsum a)
      by (field; lra). done.
Qed.

Lemma range_value_nonneg (a : list R) : a ≠ [] → 0 <= range_value a.
Proof. intros [? ?]%np_mean_between. unfold range_value. lra. Qed.



Lemma np_std_finite (a : list R) :
  (2 <= length a)%nat →
  np_std a = F64 (sqrt (Rsum ((λ x, (x - np_mean a) ^ 2) <$> a)
                           / INR (length a - 1))).
Proof. intros Hn. unfold np_std. by rewrite decide_False by lia. Qed.

Lemma sqrt_length_ge_1 (a : list R) : a ≠ [] → 1 <= sqrt (INR (length a)).
Proof.
  intros Ha. rewrite <- sqrt_1. apply sqrt_le_1_alt.
  change 1 with (INR 1). apply le_INR. destruct a; [done|simpl; lia].
Qed.

(** An absolute uncertainty is nan or a real that is not negative. *)
Lemma absolute_uncertainty_cases (method : uncertainty_method) (a : list R) :
  a ≠ [] →
  (absolute_uncertainty method a = F64NaN ∧ length a = 1%nat ∧
   method ≠ RangeMethod) ∨
  (∃ u, absolute_uncertainty method a = F64 u ∧ 0 <= u).
Proof.
  intros Ha. pose proof (sqrt_length_ge_1 a Ha) as Hs.
  destruct method; cbn [absolute_uncertainty].
  - right. eexists. split; [reflexivity|].
    pose proof (range_value_nonneg a Ha). lra.
  - unfold np_std. case_decide as Hn.
    + left. split; [done|]. split; [|done]. destruct a; [done|simpl in *; lia].
    + right. eexists. split; [reflexivity|apply sqrt_pos].
  - unfold np_std. case_decide as Hn.
    + left. split; [done|]. split; [|done]. destruct a; [done|simpl in *; lia].
    + right. cbn [float64_div]. rewrite decide_False by lra.
      eexists. split; [reflexivity|].
      apply Rmult_le_pos; [apply sqrt_pos|].
      left. apply Rinv_0_lt_compat. lra.
Qed.

(** X17.  For at least two measurements each of the three methods gives an
    absolute uncertainty that is a real number and not negative, and, when
    the mean is not zero, a percentage uncertainty that is a real number and
    not negative. *)
Theorem repeated_measurements_give_nonnegative_uncertainty
    (method : uncertainty_method) (a : list R) :
  (2 <= length a)%nat →
  (∃ u, absolute_uncertainty method a = F64 u ∧ 0 <= u) ∧
  (np_mean a ≠ 0 →
   ∃ p, percentage_uncertainty method a = F64 p ∧ 0 <= p).
Proof.
  intros Hn. assert (a ≠ []) as Ha by (intros ->; simpl in Hn; lia).
  destruct (absolute_uncertainty_cases method a Ha)
    as [(_ & H1 & _)|(u & Hu & Hu0)]; [lia|].
  split; [eauto|]. intros Hm. unfold percentage_uncertainty. rewrite Hu.
  cbn [float64_div]. rewrite decide_False by (by apply Rabs_no_R0).
  cbn [float64_mul]. eexists. split; [reflexivity|].
  apply Rmult_le_pos; [|lra]. apply Rmult_le_pos; [done|].
  left. apply Rinv_0_lt_compat. by apply Rabs_pos_lt.
Qed.

Lemma repeated_measurements_give_nonnegative_uncertainty_witness :
  ∃ u, absolute_uncertainty StandardErrorOfTheMean [1; 3; 2] = F64 u ∧
       0 <= u.
Proof.
  apply (repeated_measurements_give_nonnegative_uncertainty
           StandardErrorOfTheMean [1; 3; 2]).
  simpl. lia.
Defined.

(** X18.  For at least two measurements the standard error of the mean is the
    standard deviation divided by the square root of their number, and it
    never exceeds the standard deviation. *)
Theorem standard_error_at_most_standard_deviation (a : list R) :
  (2 <= length a)%nat →
  ∃ sd se,
    absolute_uncertainty StandardDeviation a = F64 sd ∧
    absolute_uncertainty StandardErrorOfTheMean a = F64 se ∧
    se = sd / sqrt (INR (length a)) ∧ 0 <= se <= sd.
Proof.
  intros Hn. assert (a ≠ []) as Ha by (intros ->; simpl in Hn; lia).
  pose proof (sqrt_length_ge_1 a Ha) as Hs.
  cbn [absolute_uncertainty]. rewrite (np_std_finite a Hn).
  cbn [float64_div]. rewrite decide_False by lra.
  eexists _, _. split; [reflexivity|]. split; [reflexivity|].
  split; [reflexivity|].
  set (sd := sqrt _). assert (0 <= sd) as Hsd by apply sqrt_pos.
  assert (0 < / sqrt (INR (length a)) <= 1) as [Hi1 Hi2].
  { split; [apply Rinv_0_lt_compat; lra|].
    rewrite <- Rinv_1. apply Rinv_le_contravar; lra. }
  unfold Rdiv. split; [apply Rmult_le_pos; lra|]. nra.
Qed.

Lemma standard_error_at_most_standard_deviation_witness :
  ∃ sd se,
    absolute_uncertainty StandardDeviation [1; 3; 2] = F64 sd ∧
    absolute_uncertainty StandardErrorOfTheMean [1; 3; 2] = F64 se ∧
    se = sd / sqrt (INR (length [1; 3; 2])) ∧ 0 <= se <= sd.
Proof.
  apply (standard_error_at_most_standard_deviation [1; 3; 2]). simpl. lia.
Defined.

(** X19.  A single measurement gives no error and no number either: the range
    method answers 0, the standard deviation and the standard error are nan,
    and so are their percentages. *)
Theorem single_measurement_gives_nan (x : R) :
  absolute_uncertainty RangeMethod [x] = F64 0 ∧
  absolute_uncertainty StandardDeviation [x] = F64NaN ∧
  absolute_uncertainty StandardErrorOfTheMean [x] = F64NaN ∧
  percentage_uncertainty StandardDeviation [x] = F64NaN ∧
  percentage_uncertainty StandardErrorOfTheMean [x] = F64NaN.
Proof.
  unfold percentage_uncertainty. cbn [absolute_uncertainty].
  assert (np_std [x] = F64NaN) as ->.
  { unfold np_std. by rewrite decide_True by (simpl; lia). }
  cbn [float64_div float64_mul]. split; [|done].
  unfold range_value. cbn [np_max np_min foldl]. f_equal. lra.
Qed.

(** X20.  When the mean of the measurements is zero the percentage uncertainty
    is inf or nan for every method, never an error: the division of line 123
    (185-187) has no guard.  The instrument column does have one: a measured
    value of zero gives the warning and no number. *)
Theorem zero_mean_percentage_is_not_a_number (method : uncertainty_method)
    (a : list R) (instrument_precision : R) :
  a ≠ [] → np_mean a = 0 →
  (percentage_uncertainty method a = F64Inf false ∨
   percentage_uncertainty method a = F64NaN) ∧
  instrument_uncertainty 0 instrument_precision = None.
Proof.
  intros Ha Hm. split.
  - unfold percentage_uncertainty. rewrite Hm, Rabs_R0.
    destruct (absolute_uncertainty_cases method a Ha)
      as [(-> & _)|(u & -> & Hu0)]; [by right|].
    cbn [float64_div]. rewrite decide_True by done.
    destruct (decide (u = 0)); [by right|left].
    cbn [float64_mul]. rewrite decide_False by lra.
    rewrite !bool_decide_eq_false_2 by lra. done.
  - unfold instrument_uncertainty. by rewrite decide_False by tauto.
Qed.

Lemma zero_mean_percentage_is_not_a_number_witness :
  (percentage_uncertainty RangeMethod [-1; 1] = F64Inf false ∨
   percentage_uncertainty RangeMethod [-1; 1] = F64NaN) ∧
  instrument_uncertainty 0 (1 / 10) = None.
Proof.
  apply (zero_mean_percentage_is_not_a_number RangeMethod [-1; 1] (1 / 10)).
  - done.
  - unfold np_mean. cbn [Rsum foldr length INR]. lra.
Defined.




